(** * The parsing context of the Walt compiler

    A shallow embedding of [packages/walt-compiler/src/parser/context.js]:
    the [Context] class with its cursor ([next]), matcher ([eat], [expect]),
    node builder ([startNode], [endNode], [makeNode]) and diagnostics
    ([syntaxError], [unexpectedValue], [unexpected], [unknown],
    [unsupported]).

    JavaScript objects live in a store and are handed around by reference;
    the methods are computations in a state-and-exception monad over the
    store and the fields of the [Context] instance. *)

From Stdlib Require Import ZArith String List Lia.
From stdpp Require Import base option list strings gmap pretty.

Local Open Scope Z_scope.
Local Open Scope string_scope.

(** ** JavaScript values and the object store *)

Abbreviation loc := nat.

(** Numbers are integers here (line and column indices); there is no NaN,
    so [===] and the SameValueZero comparison of [Array.prototype.includes]
    both coincide with equality of values, references being compared by
    identity. *)
Inductive val : Type :=
  | VUndef
  | VNull
  | VBool (b : bool)
  | VNum (n : Z)
  | VStr (s : string)
  | VRef (l : loc).

#[global] Instance val_eq_dec : EqDecision val.
Proof. solve_decision. Defined.

(** What a reference points to.  An object is a finite map from property
    names to values (own enumerable properties; enumeration order is not
    represented).  [CFun] is the one closure the source creates, the
    [toString] arrow function of [endNode], represented by the variable it
    captures ([range]).  [CError] is an instance of a built-in error class. *)
Inductive cell : Type :=
  | CObj (props : gmap string val)
  | CArr (elems : list val)
  | CFun (range : val)
  | CError (name : string) (message : string).

Abbreviation heap := (list cell).

Definition nullish (v : val) : bool :=
  match v with VUndef | VNull => true | _ => false end.

(** ToBoolean. *)
Definition truthy (v : val) : bool :=
  match v with
  | VUndef | VNull => false
  | VBool b => b
  | VNum n => negb (Z.eqb n 0)
  | VStr s => negb (String.eqb s "")
  | VRef _ => true
  end.

(** [a || b] once both operands are values. *)
Definition or_else (a b : val) : val := if truthy a then a else b.

(** [v[k]] for a non-nullish [v].  The source only reads the names
    [value], [type], [start] and [range], which no built-in prototype
    defines, so anything but an own property of an object is [undefined]. *)
Definition read_prop (h : heap) (v : val) (k : string) : val :=
  match v with
  | VRef l =>
      match h !! l with
      | Some (CObj m) => default VUndef (m !! k)
      | _ => VUndef
      end
  | _ => VUndef
  end.

Definition index_props (l : list val) : gmap string val :=
  list_to_map (imap (fun (i : nat) (x : val) => (pretty i, x)) l).

Fixpoint code_units (s : string) : list val :=
  match s with
  | EmptyString => []
  | String c rest => VStr (String c EmptyString) :: code_units rest
  end.

(** The own enumerable properties copied by object spread [{...v}] and by
    rest destructuring: none for [null], [undefined], booleans, numbers,
    functions and errors; the indices for arrays and strings. *)
Definition own_props (h : heap) (v : val) : gmap string val :=
  match v with
  | VStr s => index_props (code_units s)
  | VRef l =>
      match h !! l with
      | Some (CObj m) => m
      | Some (CArr es) => index_props es
      | _ => ∅
      end
  | _ => ∅
  end.

(** ToString on primitives; converting an object would run its own
    [toString], which is outside this model. *)
Definition to_string_prim (v : val) : option string :=
  match v with
  | VUndef => Some "undefined"
  | VNull => Some "null"
  | VBool true => Some "true"
  | VBool false => Some "false"
  | VNum n => Some (pretty n)
  | VStr s => Some s
  | VRef _ => None
  end.

(** [Array.prototype.join(",")] on an array of strings, which is what
    [String(value)] computes for a [string[]]. *)
Fixpoint join_comma (l : list string) : string :=
  match l with
  | [] => ""
  | [x] => x
  | x :: rest => x ++ "," ++ join_comma rest
  end.

(** [xs.includes(v)] for an array of strings. *)
Definition includes (xs : list string) (v : val) : bool :=
  bool_decide (v ∈ (VStr <$> xs)).

(** What [concat] appends for one argument: the elements of an array, or
    the argument itself when it is anything else. *)
Definition concat_items (h : heap) (arg : val) : list val :=
  match arg with
  | VRef a =>
      match h !! a with
      | Some (CArr xs) => xs
      | _ => [arg]
      end
  | _ => [arg]
  end.

(** ToIntegerOrInfinity on the values a column index can be here:
    [undefined] is NaN, hence 0.  Strings and objects are not converted. *)
Definition to_integer (v : val) : option Z :=
  match v with
  | VUndef | VNull => Some 0
  | VBool b => Some (if b then 1 else 0)
  | VNum n => Some n
  | VStr _ | VRef _ => None
  end.

(** The second argument of [slice]: the length when it is [undefined]. *)
Definition slice_end (len : Z) (v : val) : option Z :=
  match v with
  | VUndef => Some len
  | _ => to_integer v
  end.

(** A relative index of [slice]: counted from the end when negative,
    clamped to the string. *)
Definition relative_index (len k : Z) : Z :=
  if Z.ltb k 0 then Z.max (len + k) 0 else Z.min k len.

(** [str.slice(a, b)] on integers. *)
Definition string_slice (str : string) (a b : Z) : string :=
  let len := Z.of_nat (String.length str) in
  let from := relative_index len a in
  let to := relative_index len b in
  String.substring (Z.to_nat from) (Z.to_nat (Z.max (to - from) 0)) str.

(** An optional [string] argument: absent means [undefined]. *)
Definition of_optional (o : option string) : val :=
  match o with Some s => VStr s | None => VUndef end.

(** ** The collaborators

    [TokenStream] (../utils/token-stream) and [generateErrorString]
    (../utils/generate-error) are imported by the source and are not part
    of it; they are taken as interfaces.  The stream hands out tokens that
    the tokenizer has already placed in the store: [next] advances and
    returns the next token, [last] returns a token without advancing.  Both
    return a value: what an exhausted stream hands out ([undefined], a
    sentinel token) is the stream's business.  The formatter may inspect
    the token it is given through the store. *)
Class TokenStreamOps := {
  TokenStream : Type;
  stream_next : TokenStream -> val * TokenStream;
  stream_last : TokenStream -> val
}.

Class ErrorFormatter := {
  generateErrorString :
    heap -> string -> val -> val -> string -> string -> string
}.

(** ** Completions *)

Inductive exn : Type :=
  | TypeError            (* raised by the runtime *)
  | Thrown (v : val).    (* a [throw] statement of the source *)

Inductive completion (A : Type) : Type :=
  | Ret (a : A)
  | Throw (e : exn)
  | Unmodelled.          (* the program left the modelled fragment *)
Arguments Ret {A} a.
Arguments Throw {A} e.
Arguments Unmodelled {A}.

Section Parser.
Context `{TokenStreamOps} `{ErrorFormatter}.

(** The fields of the class.  [filename] is declared but never assigned
    by the constructor, so it is optional. *)
Record Context := mkContext {
  token : val;
  stream : TokenStream;
  filename : option string;
  lines : list string
}.

Record State := mkState {
  this : Context;
  mem : heap
}.

Definition js (A : Type) : Type := State -> completion A * State.

Definition ret {A} (a : A) : js A := fun s => (Ret a, s).

Definition bind {A B} (m : js A) (k : A -> js B) : js B :=
  fun s =>
    match m s with
    | (Ret a, s') => k a s'
    | (Throw e, s') => (Throw e, s')
    | (Unmodelled, s') => (Unmodelled, s')
    end.

Definition throw {A} (e : exn) : js A := fun s => (Throw e, s).
Definition unmodelled {A} : js A := fun s => (Unmodelled, s).

#[local] Notation "x <- m ;; k" := (bind m (fun x => k))
  (at level 100, m at next level, right associativity).
#[local] Notation "m ;;; k" := (bind m (fun _ => k))
  (at level 100, right associativity).

Definition get_state : js State := fun s => (Ret s, s).
Definition read_token : js val := fun s => (Ret (token (this s)), s).

(** A fresh object: the store grows at its end and nothing else moves. *)
Definition alloc (c : cell) : js val :=
  fun s => (Ret (VRef (List.length (mem s))), mkState (this s) (mem s ++ [c])%list).

(** Property read [v.k]; reading from [null] or [undefined] is a
    TypeError. *)
Definition get (v : val) (k : string) : js val :=
  fun s =>
    if nullish v then (Throw TypeError, s)
    else (Ret (read_prop (mem s) v k), s).

(** Template-literal interpolation of a value. *)
Definition to_string (v : val) : js string :=
  match to_string_prim v with
  | Some str => ret str
  | None => unmodelled
  end.

(** [recv.concat(arg)].  On an array it returns a new array, spreading
    [arg] when that is itself an array.  [undefined], [null] and values
    without a [concat] method raise a TypeError; string receivers and
    user-defined [concat] methods are not modelled. *)
Definition call_concat (recv arg : val) : js val :=
  fun s =>
    match recv with
    | VUndef | VNull | VBool _ | VNum _ => (Throw TypeError, s)
    | VStr _ => (Unmodelled, s)
    | VRef l =>
        match mem s !! l with
        | Some (CArr es) =>
            alloc (CArr (es ++ concat_items (mem s) arg)%list) s
        | Some (CObj m) =>
            match m !! "concat" with
            | None => (Throw TypeError, s)
            | Some (VRef f) =>
                match mem s !! f with
                | Some (CFun _) => (Unmodelled, s)
                | _ => (Throw TypeError, s)
                end
            | Some _ => (Throw TypeError, s)
            end
        | Some (CFun _) | Some (CError _ _) | None => (Throw TypeError, s)
        end
    end.

(** *** Diagnostics *)

(** [syntaxError(msg, error)] *)
Definition syntaxError (msg : string) (error : val) : js val :=
  s <- get_state ;;
  let functionId := "unknown" in
  alloc (CError "SyntaxError"
           (generateErrorString (mem s)
              msg
              (or_else error (VStr ""))
              (token (this s))
              (match filename (this s) with
               | Some f => if String.eqb f "" then "unknown" else f
               | None => "unknown"
               end)
              functionId)).

(** The argument of [unexpectedValue] is [string[] | string]. *)
Inductive expected : Type :=
  | ExpArr (vs : list string)
  | ExpStr (v : string).

Definition String_expected (e : expected) : string :=
  match e with
  | ExpArr vs => join_comma vs
  | ExpStr v => v
  end.

(** [unexpectedValue(value)] *)
Definition unexpectedValue (value : expected) : js val :=
  syntaxError ("Expected: " ++ String_expected value) (VStr "Unexpected value").

(** [unexpected(token?)] *)
Definition unexpected (tok : option string) : js val :=
  let msg := "Expected: " ++ default "undefined" tok in
  cur <- read_token ;;
  ty <- get cur "type" ;;
  tys <- to_string ty ;;
  syntaxError msg (VStr ("Unexpected token " ++ tys)).

(** [unknown({ value })] *)
Definition unknown (arg : val) : js val :=
  value <- get arg "value" ;;
  syntaxError "Unknown token" value.

(** [unsupported()] *)
Definition unsupported : js val :=
  cur <- read_token ;;
  value <- get cur "value" ;;
  syntaxError "Language feature not supported" value.

(** *** Cursor and matcher *)

(** [next()] *)
Definition next : js unit :=
  fun s =>
    let '(t, st) := stream_next (stream (this s)) in
    (Ret tt,
     mkState (mkContext t st (filename (this s)) (lines (this s))) (mem s)).

(** [eat(value, type)] *)
Definition eat (value : option (list string)) (type : option string) : js bool :=
  cur <- read_token ;;
  if nullish cur then ret false
  else
    match value with
    | Some vs =>
        v <- get cur "value" ;;
        if includes vs v then (next ;;; ret true) else ret false
    | None =>
        ty <- get cur "type" ;;
        if bool_decide (ty = of_optional type)
        then (next ;;; ret true)
        else ret false
    end.

(** [expect(value, type)] *)
Definition expect (value : option (list string)) (type : option string) : js val :=
  tok <- read_token ;;
  ok <- eat value type ;;
  if ok then ret tok
  else
    err <- match value with
           | Some vs => unexpectedValue (ExpArr vs)
           | None => unexpected type
           end ;;
    throw (Thrown err).

(** *** Node builder *)

(** [this.token || {}], the default value of [startNode]'s parameter. *)
Definition token_or_empty : js val :=
  cur <- read_token ;;
  if truthy cur then ret cur else alloc (CObj ∅).

(** [startNode(token = this.token || {})]; the default applies when the
    argument is [undefined]. *)
Definition startNode (arg : val) : js val :=
  tok <- match arg with
         | VUndef => token_or_empty
         | _ => ret arg
         end ;;
  value <- get tok "value" ;;
  start <- get tok "start" ;;
  range <- alloc (CArr [start]) ;;
  meta <- alloc (CObj ∅) ;;
  params <- alloc (CArr []) ;;
  alloc (CObj (<["type" := VNull]>
               (<["params" := params]>
                (<["meta" := meta]>
                 (<["range" := range]>
                  (<["value" := value]>
                   (<["Type" := VStr ""]> ∅))))))).

(** [this.token || this.stream.last() || {}] *)
Definition token_or_last_or_empty : js val :=
  cur <- read_token ;;
  if truthy cur then ret cur
  else
    s <- get_state ;;
    let lst := stream_last (stream (this s)) in
    if truthy lst then ret lst else alloc (CObj ∅).

(** [endNode(base, Type)] *)
Definition endNode (base : val) (Type_ : string) : js val :=
  tok <- token_or_last_or_empty ;;
  base_range <- get base "range" ;;
  tok_start <- get tok "start" ;;
  range <- call_concat base_range tok_start ;;
  toString <- alloc (CFun range) ;;
  s <- get_state ;;
  let seed := delete "toString" (own_props (mem s) base) in
  alloc (CObj (<["range" := range]>
               (<["Type" := VStr Type_]>
                (seed ∪ {["toString" := toString]})))).

(** [makeNode(node, syntax)] *)
Definition makeNode (node : val) (syntax : string) : js val :=
  started <- startNode VUndef ;;
  s <- get_state ;;
  merged <- alloc (CObj (own_props (mem s) node ∪ own_props (mem s) started)) ;;
  endNode merged syntax.

(** *** The constructor and the derived source-text accessor *)

(** [constructor({ stream, token, lines })]: [filename] is not assigned. *)
Definition Context_constructor
    (stream0 : TokenStream) (token0 : val) (lines0 : list string) : Context :=
  mkContext token0 stream0 None lines0.

(** [recv.slice(a, b)].  On a string it is [String.prototype.slice] over
    integer arguments; [undefined], [null] and values without a [slice]
    method raise a TypeError; array receivers, user-defined [slice] methods
    and arguments that are strings or objects are not modelled. *)
Definition call_slice (recv a b : val) : js val :=
  fun s =>
    match recv with
    | VUndef | VNull | VBool _ | VNum _ => (Throw TypeError, s)
    | VStr str =>
        match to_integer a, slice_end (Z.of_nat (String.length str)) b with
        | Some from, Some to => (Ret (VStr (string_slice str from to)), s)
        | _, _ => (Unmodelled, s)
        end
    | VRef l =>
        match mem s !! l with
        | Some (CArr _) => (Unmodelled, s)
        | Some (CObj m) =>
            match m !! "slice" with
            | None => (Throw TypeError, s)
            | Some (VRef f) =>
                match mem s !! f with
                | Some (CFun _) => (Unmodelled, s)
                | _ => (Throw TypeError, s)
                end
            | Some _ => (Throw TypeError, s)
            end
        | Some (CFun _) | Some (CError _ _) | None => (Throw TypeError, s)
        end
    end.

(** The body of the [toString] arrow function of [endNode], run with the
    [range] it captured:
    [start = range[0]; end = range[range.length - 1];
     return start.sourceLine.slice(start.col, end.col)].
    The closure is only ever created over the array [concat] returned. *)
Definition toString_body (range : val) : js val :=
  s <- get_state ;;
  match range with
  | VRef r =>
      match mem s !! r with
      | Some (CArr es) =>
          let start := default VUndef (es !! 0%nat) in
          let end_ := default VUndef (es !! (List.length es - 1)%nat) in
          line <- get start "sourceLine" ;;
          start_col <- get start "col" ;;
          end_col <- get end_ "col" ;;
          call_slice line start_col end_col
      | _ => unmodelled
      end
  | _ => unmodelled
  end.

(** [node.toString()]: the own [toString] of the node when it has one (a
    node built by [endNode] does), [Object.prototype.toString] for a plain
    object without one. *)
Definition call_toString (node : val) : js val :=
  fun s =>
    match node with
    | VUndef | VNull => (Throw TypeError, s)
    | VRef l =>
        match mem s !! l with
        | Some (CObj m) =>
            match m !! "toString" with
            | None => (Ret (VStr "[object Object]"), s)
            | Some (VRef f) =>
                match mem s !! f with
                | Some (CFun range) => toString_body range s
                | _ => (Throw TypeError, s)
                end
            | Some _ => (Throw TypeError, s)
            end
        | _ => (Unmodelled, s)
        end
    | _ => (Unmodelled, s)
    end.

(** *** Driving a context

    A caller's use of a context is a sequence of method calls; it goes on
    after a call that threw (the caller caught the error). *)
Inductive call : Type :=
  | Call_next
  | Call_eat (value : option (list string)) (type : option string)
  | Call_expect (value : option (list string)) (type : option string)
  | Call_startNode (seed : val)
  | Call_endNode (base : val) (Type_ : string)
  | Call_makeNode (node : val) (syntax : string)
  | Call_syntaxError (msg : string) (error : val)
  | Call_unexpectedValue (value : expected)
  | Call_unexpected (tok : option string)
  | Call_unknown (arg : val)
  | Call_unsupported
  | Call_toString (node : val).

Definition after (c : call) (s : State) : State :=
  match c with
  | Call_next => (next s).2
  | Call_eat value type => (eat value type s).2
  | Call_expect value type => (expect value type s).2
  | Call_startNode seed => (startNode seed s).2
  | Call_endNode base T => (endNode base T s).2
  | Call_makeNode node T => (makeNode node T s).2
  | Call_syntaxError msg error => (syntaxError msg error s).2
  | Call_unexpectedValue value => (unexpectedValue value s).2
  | Call_unexpected tok => (unexpected tok s).2
  | Call_unknown arg => (unknown arg s).2
  | Call_unsupported => (unsupported s).2
  | Call_toString node => (call_toString node s).2
  end.

Definition after_all (cs : list call) (s : State) : State :=
  fold_left (fun s c => after c s) cs s.

End Parser.

Notation "x <- m ;; k" := (bind m (fun x => k))
  (at level 100, m at next level, right associativity).
Notation "m ;;; k" := (bind m (fun _ => k))
  (at level 100, right associativity).

(** ** A concrete instance for the worked examples

    An array-backed stream (a token array and an index) and a formatter
    that prints the file name, the message and the detail on one line. *)
Module Example.

Record ArrayStream := mkArrayStream {
  tokens : list val;
  pos : nat
}.

#[export] Instance array_stream : TokenStreamOps := {|
  TokenStream := ArrayStream;
  stream_next st :=
    (default VUndef (tokens st !! S (pos st)),
     mkArrayStream (tokens st) (S (pos st)));
  stream_last st := List.last (tokens st) VUndef
|}.

#[export] Instance line_formatter : ErrorFormatter := {|
  generateErrorString _ msg error _ fname func :=
    fname ++ ": " ++ msg ++ " (" ++ default "" (to_string_prim error) ++ ")"
|}.

(** A position [{ line, col, sourceLine }]. *)
Definition position (line col : Z) (sourceLine : string) : cell :=
  CObj (<["sourceLine" := VStr sourceLine]>
        (<["col" := VNum col]> (<["line" := VNum line]> ∅))).

(** A token [{ value, type, start }]. *)
Definition tok (value type : string) (start : loc) : cell :=
  CObj (<["start" := VRef start]>
        (<["type" := VStr type]> (<["value" := VStr value]> ∅))).

(** The tokens of the line [let x = 5;]: positions at even addresses,
    tokens at odd ones. *)
Definition src : string := "let x = 5;".
Definition let_heap : heap :=
  [ position 0 0 src; tok "let" "keyword" 0%nat;
    position 0 4 src; tok "x" "identifier" 2%nat;
    position 0 6 src; tok "=" "punctuator" 4%nat;
    position 0 8 src; tok "5" "constant" 6%nat;
    position 0 9 src; tok ";" "punctuator" 8%nat ].
Definition let_tokens : list val := [VRef 1; VRef 3; VRef 5; VRef 7; VRef 9]%nat.

(** A context whose current token is the [i]-th token of the line. *)
Definition let_state (i : nat) : State :=
  mkState
    (mkContext (default VUndef (let_tokens !! i))
       (mkArrayStream let_tokens i) None [src])
    let_heap.

(** The operator token of the failure scenario, as the only token. *)
Definition plus_state : State :=
  mkState (mkContext (VRef 1) (mkArrayStream [VRef 1] 0) None ["+"])
    [position 0 0 "+"; tok "+" "Operator" 0%nat].

(** The cursor on [x], and a partial [{ value: "x", toString: "x" }] at
    address 10. *)
Definition partial_state : State :=
  mkState (this (let_state 1))
    (let_heap ++ [CObj (<["toString" := VStr "x"]> (<["value" := VStr "x"]> ∅))])%list.

(** The state after [makeNode(undefined, "Identifier")] on [x], and the
    finished node it returned. *)
Definition finished_state : State := (makeNode VUndef "Identifier" (let_state 1)).2.
Definition finished_node : val := VRef 17.

(** The node opened on [x] (at address 13), and that node closed after one
    [next()] (at address 16): the scenario of the line. *)
Definition open_state : State := (startNode VUndef (let_state 1)).2.
Definition spanned_state : State :=
  (endNode (VRef 13) "Identifier" (next open_state).2).2.

(** The end of the input, with the partial of [partial_state] in the
    store. *)
Definition exhausted_state : State :=
  mkState (this (let_state 5)) (mem partial_state).

End Example.

(** ** Vocabulary of the specification *)

Section Vocabulary.
Context `{TokenStreamOps} `{ErrorFormatter}.

(** The state after one cursor advance: [token] is replaced by
    [stream.next()], the stream has moved, nothing else changes. *)
Definition advanced (s : State) : State :=
  let r := stream_next (stream (this s)) in
  mkState (mkContext r.1 r.2 (filename (this s)) (lines (this s))) (mem s).

(** The current token matches [value]/[type]: there is a current token
    and, if a value set is given, its value is a member of the set;
    otherwise its type equals [type]. *)
Definition current_matches
    (s : State) (value : option (list string)) (type : option string) : Prop :=
  nullish (token (this s)) = false /\
  match value with
  | Some vs =>
      exists x, read_prop (mem s) (token (this s)) "value" = VStr x /\ In x vs
  | None =>
      read_prop (mem s) (token (this s)) "type" = of_optional type
  end.

(** The file name handed to the formatter. *)
Definition reported_filename (c : Context) : string :=
  match filename c with
  | Some f => if String.eqb f "" then "unknown" else f
  | None => "unknown"
  end.

(** The state after a diagnostic was built: one more error object. *)
Definition with_error (s : State) (msg : string) (detail : val) : State :=
  mkState (this s)
    (mem s ++ [CError "SyntaxError"
                 (generateErrorString (mem s) msg (or_else detail (VStr ""))
                    (token (this s)) (reported_filename (this s)) "unknown")])%list.

(** An instance of [SyntaxError] in the store. *)
Definition is_syntax_error (h : heap) (v : val) : Prop :=
  exists l msg, v = VRef l /\ h !! l = Some (CError "SyntaxError" msg).

(** [needle] occurs in [hay]. *)
Definition contains (needle hay : string) : Prop :=
  exists pre post, hay = pre ++ needle ++ post.

(** The start position a node opened without a seed gets: that of the
    current token, or [undefined] (from the empty object) without one. *)
Definition seed_start (s : State) : val :=
  if truthy (token (this s))
  then read_prop (mem s) (token (this s)) "start"
  else VUndef.

(** The end position [endNode] reads: that of the current token, else of
    [stream.last()], else [undefined] (from the empty object). *)
Definition end_start (s : State) : val :=
  if truthy (token (this s))
  then read_prop (mem s) (token (this s)) "start"
  else if truthy (stream_last (stream (this s)))
       then read_prop (mem s) (stream_last (stream (this s))) "start"
       else VUndef.

(** The fields of a freshly opened node. *)
Definition opened_node (value range meta params : val) : gmap string val :=
  <["type" := VNull]>
    (<["params" := params]>
       (<["meta" := meta]>
          (<["range" := range]>
             (<["value" := value]> (<["Type" := VStr ""]> ∅))))).

(** Source positions [{ line, col }] and their order in the text. *)
Definition position_of (h : heap) (v : val) : option (Z * Z) :=
  match read_prop h v "line", read_prop h v "col" with
  | VNum l, VNum c => Some (l, c)
  | _, _ => None
  end.

Definition precedes_or_equals (h : heap) (a b : val) : Prop :=
  match position_of h a, position_of h b with
  | Some (l1, c1), Some (l2, c2) => (l1 < l2 \/ (l1 = l2 /\ c1 <= c2))%Z
  | _, _ => False
  end.

(** [s'] differs from [s] by newly allocated objects only: the context
    is the same and every object of [s] is still there, unchanged. *)
Definition extends (s s' : State) : Prop :=
  this s' = this s /\ mem s `prefix_of` mem s'.

(** A value that [concat] appends as one element whatever is allocated
    later: a primitive, or a reference to a live object that is not an
    array. *)
Definition single_item (h : heap) (v : val) : bool :=
  match v with
  | VRef a =>
      match h !! a with
      | Some (CArr _) | None => false
      | Some _ => true
      end
  | _ => true
  end.

(** The result of opening a node on the token [tok]: four new objects,
    the range array, [meta], [params] and the node itself. *)
Definition opened (s : State) (tok : val) : completion val * State :=
  let h := mem s in
  let n := List.length h in
  (Ret (VRef (n + 3)%nat),
   mkState (this s)
     (h ++ [CArr [read_prop h tok "start"];
            CObj ∅;
            CArr [];
            CObj (opened_node (read_prop h tok "value")
                    (VRef n) (VRef (n + 1)%nat) (VRef (n + 2)%nat))])%list).

(** The fields of a node closed by [endNode] from the own properties
    [props] of its base. *)
Definition closed_node
    (props : gmap string val) (Type_ : string) (range toString : val) : gmap string val :=
  <["range" := range]>
    (<["Type" := VStr Type_]>
       (delete "toString" props ∪ {["toString" := toString]})).

(** The state in which [endNode] reads its end position: an empty object
    has been allocated when neither the current token nor [stream.last()]
    is there. *)
Definition end_state (s : State) : State :=
  if truthy (token (this s)) || truthy (stream_last (stream (this s)))
  then s
  else mkState (this s) (mem s ++ [CObj ∅])%list.

(** The result of closing a node in the state [s0]: three new objects,
    the range array (the base's range [es] followed by the end position),
    the [toString] closure over it, and the node itself. *)
Definition closed
    (s0 : State) (props : gmap string val) (es : list val) (end_pos : val)
    (Type_ : string) : completion val * State :=
  let h := mem s0 in
  let n := List.length h in
  (Ret (VRef (n + 2)%nat),
   mkState (this s0)
     (h ++ [CArr (es ++ concat_items h end_pos)%list;
            CFun (VRef n);
            CObj (closed_node props Type_ (VRef n) (VRef (n + 1)%nat))])%list).

(** A value that is not a dangling reference. *)
Definition live (h : heap) (v : val) : bool :=
  match v with
  | VRef l => bool_decide (l < List.length h)%nat
  | _ => true
  end.

(** The tokens the context can reach sit in the store. *)
Definition cursor_live (s : State) : Prop :=
  live (mem s) (token (this s)) = true /\
  live (mem s) (stream_last (stream (this s))) = true.

(** The state and the seed of [startNode()]: the current token, or a new
    empty object. *)
Definition start_state (s : State) : State :=
  if truthy (token (this s)) then s
  else mkState (this s) (mem s ++ [CObj ∅])%list.

Definition start_token (s : State) : val :=
  if truthy (token (this s)) then token (this s)
  else VRef (List.length (mem s)).

(** [r] is the outcome of opening a node in state [s] with the given
    [value] and [start] position: a new object with [Type] the empty
    string, the carried [value], a one-element [range], an empty [meta], an
    empty [params] and [type] null; nothing that existed has changed. *)
Definition node_opened
    (s : State) (value start : val) (r : completion val * State) : Prop :=
  exists n range meta params m,
    r.1 = Ret (VRef n) /\
    extends s r.2 /\
    mem s !! n = None /\
    mem r.2 !! n = Some (CObj m) /\
    m !! "Type" = Some (VStr "") /\
    m !! "value" = Some value /\
    m !! "range" = Some (VRef range) /\
    mem r.2 !! range = Some (CArr [start]) /\
    m !! "meta" = Some (VRef meta) /\
    mem r.2 !! meta = Some (CObj ∅) /\
    m !! "params" = Some (VRef params) /\
    mem r.2 !! params = Some (CArr []) /\
    m !! "type" = Some VNull /\
    dom m = list_to_set ["Type"; "value"; "range"; "meta"; "params"; "type"].

(** The [range] array of a node, when it has one. *)
Definition range_of (h : heap) (node : val) : option (list val) :=
  match read_prop h node "range" with
  | VRef r =>
      match h !! r with
      | Some (CArr items) => Some items
      | _ => None
      end
  | _ => None
  end.

(** The own property [k] of the object [v]. *)
Definition read_own (h : heap) (v : val) (k : string) : option val :=
  match v with
  | VRef l =>
      match h !! l with
      | Some (CObj m) => m !! k
      | _ => None
      end
  | _ => None
  end.

(** Every own property of the partial, the names in [exempt] apart, is a
    property of the node [v] with the value the partial gives it. *)
Definition carries_partial
    (exempt : list string) (props : gmap string val) (h : heap) (v : val) : Prop :=
  forall k x, props !! k = Some x -> k ∉ exempt -> read_own h v k = Some x.

(** What every method keeps, the cursor methods included: the store only
    grows, and [filename] and [lines] stay. *)
Definition evolves (s s' : State) : Prop :=
  mem s `prefix_of` mem s' /\
  filename (this s') = filename (this s) /\
  lines (this s') = lines (this s).

(** A computation whose final state is related to its initial state by
    [R], whatever its outcome. *)
Definition keeps {A} (R : State -> State -> Prop) (m : js A) : Prop :=
  forall s, R s (m s).2.

(** The calls that may move the cursor. *)
Definition moves_cursor (c : call) : bool :=
  match c with
  | Call_next | Call_eat _ _ | Call_expect _ _ => true
  | _ => false
  end.

(** The value a node opened without a seed carries: that of the current
    token, or [undefined] (from the empty object) without one. *)
Definition seed_value (s : State) : val :=
  if truthy (token (this s))
  then read_prop (mem s) (token (this s)) "value"
  else VUndef.

End Vocabulary.

(** ** Basic facts about the store and the monad *)

Section Facts.
Context `{TokenStreamOps} `{ErrorFormatter}.

Lemma lookup_snoc_new (h : heap) (c : cell) :
  (h ++ [c])%list !! List.length h = Some c.
Proof. by rewrite list_lookup_middle. Qed.

Lemma includes_In (xs : list string) (v : val) :
  includes xs v = true <-> exists x, v = VStr x /\ In x xs.
Proof.
  unfold includes. rewrite bool_decide_eq_true, list_elem_of_fmap.
  split; intros (x & Hx & Hin); exists x; split; try done;
    by apply list_elem_of_In.
Qed.

End Facts.

(** ** The matcher *)

Section Matcher.
Context `{TokenStreamOps} `{ErrorFormatter}.

Lemma next_run (s : State) : next s = (Ret tt, advanced s).
Proof.
  unfold next, advanced. by destruct (stream_next (stream (this s))).
Qed.

(** Without a current token [eat] answers [false] and leaves the state
    alone. *)
Lemma eat_no_token (s : State) value type :
  nullish (token (this s)) = true -> eat value type s = (Ret false, s).
Proof. intros Hn. unfold eat, bind, read_token. by rewrite Hn. Qed.

Lemma eat_match (s : State) value type :
  current_matches s value type -> eat value type s = (Ret true, advanced s).
Proof.
  intros [Hn Hm]. unfold eat, bind, read_token, get. rewrite Hn.
  destruct value as [vs|]; simpl.
  - apply includes_In in Hm. rewrite Hm. by rewrite next_run.
  - rewrite Hm, bool_decide_eq_true_2 by done. by rewrite next_run.
Qed.

Lemma eat_mismatch (s : State) value type :
  ~ current_matches s value type -> eat value type s = (Ret false, s).
Proof.
  intros Hm. destruct (nullish (token (this s))) eqn:Hn.
  { by apply eat_no_token. }
  unfold eat, bind, read_token, get. rewrite Hn.
  destruct value as [vs|]; simpl.
  - destruct (includes vs _) eqn:Hi; [|done].
    exfalso. apply Hm. split; [done|]. by apply includes_In.
  - case_bool_decide as Ht; [|done].
    exfalso. apply Hm. by split.
Qed.

Lemma current_matches_dec (s : State) value type :
  current_matches s value type \/ ~ current_matches s value type.
Proof.
  unfold current_matches.
  destruct (nullish (token (this s))); [right; by intros [? _]|].
  destruct value as [vs|].
  - destruct (includes vs (read_prop (mem s) (token (this s)) "value")) eqn:Hi.
    + left. split; [done|]. by apply includes_In.
    + right. intros [_ Hx]. apply includes_In in Hx. congruence.
  - destruct (decide (read_prop (mem s) (token (this s)) "type"
                      = of_optional type)); [left|right; intros [_ ?]]; done.
Qed.

(** C1.  [eat(value, type)] never throws.  It answers [true] and leaves
    the context advanced (the token replaced by [stream.next()]) exactly
    when the current token matches: its value is a member of [value] when
    a value set is given, its type equals [type] otherwise.  On a
    mismatch, and when there is no current token, it answers [false] and
    the state is the one before the call. *)
Theorem eat_advances_iff_match (s : State) value type :
  (exists b : bool,
      eat value type s = (Ret b, if b then advanced s else s) /\
      (b = true <-> current_matches s value type)) /\
  (current_matches s value type ->
     eat value type s = (Ret true, advanced s)) /\
  (~ current_matches s value type ->
     eat value type s = (Ret false, s)) /\
  (nullish (token (this s)) = true ->
     eat value type s = (Ret false, s)).
Proof.
  split; [|split; [apply eat_match | split; [apply eat_mismatch | apply eat_no_token]]].
  destruct (current_matches_dec s value type) as [Hm|Hm].
  - exists true. split; [by apply eat_match | done].
  - exists false. split; [by apply eat_mismatch | split; [done | tauto]].
Qed.

End Matcher.

(** ** Diagnostics and [expect] *)

Section Diagnostics.
Context `{TokenStreamOps} `{ErrorFormatter}.

Lemma syntaxError_run (s : State) msg detail :
  syntaxError msg detail s
  = (Ret (VRef (List.length (mem s))), with_error s msg detail).
Proof. reflexivity. Qed.

Lemma with_error_is_syntax_error (s : State) msg detail :
  is_syntax_error (mem (with_error s msg detail)) (VRef (List.length (mem s))).
Proof.
  eexists _, _. split; [reflexivity|]. simpl. apply lookup_snoc_new.
Qed.

Lemma unexpectedValue_run (s : State) value :
  unexpectedValue value s
  = (Ret (VRef (List.length (mem s))),
     with_error s ("Expected: " ++ String_expected value) (VStr "Unexpected value")).
Proof. reflexivity. Qed.

Lemma unexpected_run (s : State) tok tys :
  nullish (token (this s)) = false ->
  to_string_prim (read_prop (mem s) (token (this s)) "type") = Some tys ->
  unexpected tok s
  = (Ret (VRef (List.length (mem s))),
     with_error s ("Expected: " ++ default "undefined" tok)
       (VStr ("Unexpected token " ++ tys))).
Proof.
  intros Hn Hs. unfold unexpected, bind, read_token, get, to_string.
  rewrite Hn, Hs. reflexivity.
Qed.

Lemma unexpected_no_token (s : State) tok :
  nullish (token (this s)) = true -> unexpected tok s = (Throw TypeError, s).
Proof.
  intros Hn. unfold unexpected, bind, read_token, get. by rewrite Hn.
Qed.

Lemma unsupported_run (s : State) :
  nullish (token (this s)) = false ->
  unsupported s
  = (Ret (VRef (List.length (mem s))),
     with_error s "Language feature not supported"
       (read_prop (mem s) (token (this s)) "value")).
Proof.
  intros Hn. unfold unsupported, bind, read_token, get. by rewrite Hn.
Qed.

Lemma unsupported_no_token (s : State) :
  nullish (token (this s)) = true -> unsupported s = (Throw TypeError, s).
Proof.
  intros Hn. unfold unsupported, bind, read_token, get. by rewrite Hn.
Qed.

Lemma unknown_run (s : State) arg :
  nullish arg = false ->
  unknown arg s
  = (Ret (VRef (List.length (mem s))),
     with_error s "Unknown token" (read_prop (mem s) arg "value")).
Proof. intros Hn. unfold unknown, bind, get. by rewrite Hn. Qed.

(** [expect] unfolded along the answer of [eat]. *)
Lemma expect_after_eat (s : State) value type :
  expect value type s =
  match eat value type s with
  | (Ret true, s') => (Ret (token (this s)), s')
  | (Ret false, s') =>
      match (match value with
             | Some vs => unexpectedValue (ExpArr vs)
             | None => unexpected type
             end) s' with
      | (Ret err, s'') => (Throw (Thrown err), s'')
      | (Throw e, s'') => (Throw e, s'')
      | (Unmodelled, s'') => (Unmodelled, s'')
      end
  | (Throw e, s') => (Throw e, s')
  | (Unmodelled, s') => (Unmodelled, s')
  end.
Proof.
  unfold expect, bind, read_token.
  by destruct (eat value type s) as [[[|]| |] s'].
Qed.

Lemma expect_success (s : State) value type :
  current_matches s value type ->
  expect value type s = (Ret (token (this s)), advanced s).
Proof. intros Hm. by rewrite expect_after_eat, eat_match. Qed.

Lemma expect_value_failure (s : State) vs type :
  ~ current_matches s (Some vs) type ->
  expect (Some vs) type s
  = (Throw (Thrown (VRef (List.length (mem s)))),
     with_error s ("Expected: " ++ join_comma vs) (VStr "Unexpected value")).
Proof. intros Hm. by rewrite expect_after_eat, eat_mismatch. Qed.

Lemma expect_type_failure (s : State) type tys :
  ~ current_matches s None type ->
  nullish (token (this s)) = false ->
  to_string_prim (read_prop (mem s) (token (this s)) "type") = Some tys ->
  expect None type s
  = (Throw (Thrown (VRef (List.length (mem s)))),
     with_error s ("Expected: " ++ default "undefined" type)
       (VStr ("Unexpected token " ++ tys))).
Proof.
  intros Hm Hn Hs.
  by rewrite expect_after_eat, eat_mismatch, (unexpected_run _ _ tys).
Qed.

(** With no current token and no value set, [expect] dies in
    [unexpected] on [this.token.type] before any syntax error exists. *)
Lemma expect_type_no_token (s : State) type :
  nullish (token (this s)) = true ->
  expect None type s = (Throw TypeError, s).
Proof.
  intros Hn.
  by rewrite expect_after_eat, eat_no_token, unexpected_no_token.
Qed.

Lemma expect_failure_keeps_context (s : State) value type :
  ~ current_matches s value type -> this (expect value type s).2 = this s.
Proof.
  intros Hm. rewrite expect_after_eat, eat_mismatch by done.
  destruct value as [vs|].
  - by rewrite unexpectedValue_run.
  - unfold unexpected, bind, read_token, get, to_string.
    destruct (nullish (token (this s))); [done|].
    by destruct (to_string_prim _).
Qed.

End Diagnostics.

(** ** What [expect] and the diagnostics promise *)

Section ExpectProperties.
Context `{TokenStreamOps} `{ErrorFormatter}.

Lemma string_app_assoc (a b c : string) : ((a ++ b) ++ c = a ++ b ++ c)%string.
Proof.
  induction a as [|ch a IH]; [reflexivity|].
  change (String ch ((a ++ b) ++ c) = String ch (a ++ b ++ c)). by f_equal.
Qed.

(** With a current token whose type is a primitive, every diagnostic
    constructor returns a fresh [SyntaxError] and throws nothing. *)
Lemma diagnostics_return_with_token (s : State) :
  (forall msg detail, exists e s',
      syntaxError msg detail s = (Ret e, s') /\ is_syntax_error (mem s') e) /\
  (forall value, exists e s',
      unexpectedValue value s = (Ret e, s') /\ is_syntax_error (mem s') e) /\
  (forall arg, nullish arg = false -> exists e s',
      unknown arg s = (Ret e, s') /\ is_syntax_error (mem s') e) /\
  (nullish (token (this s)) = false ->
   (exists e s', unsupported s = (Ret e, s') /\ is_syntax_error (mem s') e) /\
   (forall tok tys,
       to_string_prim (read_prop (mem s) (token (this s)) "type") = Some tys ->
       exists e s', unexpected tok s = (Ret e, s') /\ is_syntax_error (mem s') e)).
Proof.
  repeat split; intros.
  - eexists _, _. split; [apply syntaxError_run | apply with_error_is_syntax_error].
  - eexists _, _. split; [apply unexpectedValue_run | apply with_error_is_syntax_error].
  - eexists _, _. split; [by apply unknown_run | apply with_error_is_syntax_error].
  - eexists _, _. split; [by apply unsupported_run | apply with_error_is_syntax_error].
  - eexists _, _. split; [by eapply unexpected_run | apply with_error_is_syntax_error].
Qed.

(** C8.  [syntaxError(message, detail)] builds a [SyntaxError] whose text
    is the formatter applied to the message, the detail (the empty string
    when the detail is absent), the current token, the file name
    (["unknown"] when unset) and the function identifier ["unknown"].  In
    the failure scenario, with current token [{value:"+", type:"Operator"}],
    [expect(["let"])] throws the unexpected-value error built from the
    message ["Expected: let"], and that text occurs in the error's message
    for every formatter that prints the message it is given. *)
Theorem syntaxError_composes_diagnostic (s : State) (msg : string) (detail : val) :
  (exists detail' fname,
      syntaxError msg detail s
      = (Ret (VRef (List.length (mem s))),
         mkState (this s)
           (mem s ++ [CError "SyntaxError"
                        (generateErrorString (mem s) msg detail'
                           (token (this s)) fname "unknown")])%list) /\
      (detail = VUndef -> detail' = VStr "") /\
      (truthy detail = true -> detail' = detail) /\
      (filename (this s) = None -> fname = "unknown") /\
      (forall f, filename (this s) = Some f -> f <> "" -> fname = f)) /\
  (forall l props,
      token (this s) = VRef l ->
      mem s !! l = Some (CObj props) ->
      props !! "value" = Some (VStr "+") ->
      props !! "type" = Some (VStr "Operator") ->
      exists e text s',
        expect (Some ["let"]) None s = (Throw (Thrown (VRef e)), s') /\
        this s' = this s /\
        mem s' !! e = Some (CError "SyntaxError" text) /\
        text = generateErrorString (mem s) "Expected: let"
                 (VStr "Unexpected value") (VRef l)
                 (reported_filename (this s)) "unknown" /\
        ((forall h m d t f g, contains m (generateErrorString h m d t f g)) ->
         contains "Expected: let" text)).
Proof.
  split.
  - exists (or_else detail (VStr "")), (reported_filename (this s)).
    split; [apply syntaxError_run|]. unfold or_else, reported_filename.
    repeat split.
    + by intros ->.
    + by intros ->.
    + by intros ->.
    + intros f -> Hf. by rewrite (proj2 (String.eqb_neq f "")).
  - intros l props Ht Hl Hv Hty.
    assert (Hm : ~ current_matches s (Some ["let"]) None).
    { intros [_ (x & Hx & Hin)]. unfold read_prop in Hx.
      rewrite Ht, Hl, Hv in Hx. simpl in Hx.
      destruct Hin as [<-|[]]. discriminate. }
    eexists _, _, _. split; [by apply expect_value_failure|].
    split; [reflexivity|]. split; [apply lookup_snoc_new|].
    rewrite Ht. split; [reflexivity|]. intros Hecho. apply Hecho.
Qed.

(** C9.  When [expect(value, type)] does not return normally, the
    context's current token (indeed every field of the context) is the one
    from before the call: the failing path never advances the cursor. *)
Theorem expect_failure_keeps_token (s : State) value type :
  (forall v, (expect value type s).1 <> Ret v) ->
  token (this (expect value type s).2) = token (this s) /\
  this (expect value type s).2 = this s.
Proof.
  intros Hfail.
  destruct (current_matches_dec s value type) as [Hm|Hm].
  - exfalso. apply (Hfail (token (this s))). by rewrite expect_success.
  - by rewrite expect_failure_keeps_context.
Qed.

End ExpectProperties.

(** ** Worked examples on the line [let x = 5;] *)

Section Scenarios.
Import Example.

Lemma line_formatter_prints_message h m d t f g :
  contains m (generateErrorString h m d t f g).
Proof.
  simpl. exists (f ++ ": "), (" (" ++ default "" (to_string_prim d) ++ ")").
  by rewrite string_app_assoc.
Qed.

(** The first step of the line: [expect(["let"])] returns the [let] token
    and the cursor is on [x]. *)
Example expect_let :
  expect (Some ["let"]) None (let_state 0) = (Ret (VRef 1), let_state 1).
Proof. reflexivity. Qed.

(** The scenario of C8 on the concrete stream and formatter. *)
Lemma syntaxError_composes_diagnostic_witness :
  exists e text s',
    expect (Some ["let"]) None plus_state = (Throw (Thrown (VRef e)), s') /\
    this s' = this plus_state /\
    mem s' !! e = Some (CError "SyntaxError" text) /\
    text = "unknown: Expected: let (Unexpected value)" /\
    contains "Expected: let" text.
Proof.
  destruct (proj2 (syntaxError_composes_diagnostic plus_state "" VUndef)
              1%nat _ eq_refl eq_refl eq_refl eq_refl)
    as (e & text & s' & He & Hthis & Hmem & Htext & Hc).
  exists e, text, s'. repeat split; try done.
  apply Hc, line_formatter_prints_message.
Defined.

(** A failing [expect] on the second token of the line: the token is
    still [x] afterwards. *)
Lemma expect_failure_keeps_token_witness :
  token (this (expect (Some ["let"]) None (let_state 1)).2) = VRef 3.
Proof.
  refine (proj1 (expect_failure_keeps_token (let_state 1) (Some ["let"]) None _)).
  intros v. vm_compute. discriminate.
Defined.

(** C2.  The end of the input reached ([token] is [undefined]), a required
    token type: [eat] answers [false], but [expect(null, "identifier")]
    raises the runtime's TypeError from [this.token.type] inside
    [unexpected], with no syntax error built, while the same call with a
    value set does raise the unexpected-value syntax error. *)
Theorem expect_type_at_end_of_input :
  eat None (Some "identifier") (let_state 5) = (Ret false, let_state 5) /\
  expect None (Some "identifier") (let_state 5) = (Throw TypeError, let_state 5) /\
  expect (Some [";"]) None (let_state 5)
  = (Throw (Thrown (VRef 10)),
     with_error (let_state 5) "Expected: ;" (VStr "Unexpected value")).
Proof. by vm_compute. Qed.

(** C7.  The end of the input reached, [unexpected] and [unsupported] do
    not return a syntax error: both raise the runtime's TypeError when they
    read a property of the missing token.  [syntaxError] and
    [unexpectedValue] return theirs in the same state. *)
Theorem diagnostics_at_end_of_input :
  unexpected (Some "identifier") (let_state 5) = (Throw TypeError, let_state 5) /\
  unsupported (let_state 5) = (Throw TypeError, let_state 5) /\
  (unexpectedValue (ExpArr [";"]) (let_state 5)).1 = Ret (VRef 10) /\
  (syntaxError "Unknown token" VUndef (let_state 5)).1 = Ret (VRef 10).
Proof. by vm_compute. Qed.

End Scenarios.

(** ** The node builder *)

Section NodeBuilder.
Context `{TokenStreamOps} `{ErrorFormatter}.

Lemma extends_refl (s : State) : extends s s.
Proof. by split. Qed.

Lemma extends_trans (s1 s2 s3 : State) :
  extends s1 s2 -> extends s2 s3 -> extends s1 s3.
Proof. intros [H1 P1] [H2 P2]. split; [congruence | by etrans]. Qed.

Lemma extends_grow (s : State) (cs : list cell) :
  extends s (mkState (this s) (mem s ++ cs)%list).
Proof. split; [done | by apply prefix_app_r]. Qed.

Lemma extends_lookup (s s' : State) (l : loc) (c : cell) :
  extends s s' -> mem s !! l = Some c -> mem s' !! l = Some c.
Proof. intros [_ Hp] Hl. by eapply prefix_lookup_Some. Qed.

Lemma single_item_concat (h h' : heap) (v : val) :
  single_item h v = true -> h `prefix_of` h' -> concat_items h' v = [v].
Proof.
  intros Hs Hp. destruct v as [| | | | |a]; try reflexivity.
  simpl in *. destruct (h !! a) as [c|] eqn:Ha; [|done].
  rewrite (prefix_lookup_Some _ _ _ _ Ha Hp). by destruct c.
Qed.

Lemma opened_node_fields (value range meta params : val) :
  let m := opened_node value range meta params in
  m !! "Type" = Some (VStr "") /\
  m !! "value" = Some value /\
  m !! "range" = Some range /\
  m !! "meta" = Some meta /\
  m !! "params" = Some params /\
  m !! "type" = Some VNull /\
  dom m = list_to_set ["Type"; "value"; "range"; "meta"; "params"; "type"].
Proof.
  unfold opened_node. repeat split; by simplify_map_eq.
Qed.

Lemma token_or_empty_token (s : State) :
  truthy (token (this s)) = true -> token_or_empty s = (Ret (token (this s)), s).
Proof. intros Ht. unfold token_or_empty, bind, read_token. by rewrite Ht. Qed.

Lemma token_or_empty_fresh (s : State) :
  truthy (token (this s)) = false ->
  token_or_empty s
  = (Ret (VRef (List.length (mem s))), mkState (this s) (mem s ++ [CObj ∅])%list).
Proof. intros Ht. unfold token_or_empty, bind, read_token. by rewrite Ht. Qed.

Lemma open_fields (s : State) (tok : val) :
  nullish tok = false ->
  (value <- get tok "value" ;;
   start <- get tok "start" ;;
   range <- alloc (CArr [start]) ;;
   meta <- alloc (CObj ∅) ;;
   params <- alloc (CArr []) ;;
   alloc (CObj (<["type" := VNull]>
                (<["params" := params]>
                 (<["meta" := meta]>
                  (<["range" := range]>
                   (<["value" := value]>
                    (<["Type" := VStr ""]> ∅)))))))) s
  = opened s tok.
Proof.
  intros Hn. unfold opened, bind, get, alloc. rewrite Hn. simpl.
  rewrite <- !app_assoc, !length_app. simpl.
  rewrite !Nat.add_1_r.
  replace (List.length (mem s) + 2)%nat with (S (S (List.length (mem s)))) by lia.
  replace (List.length (mem s) + 3)%nat with (S (S (S (List.length (mem s))))) by lia.
  reflexivity.
Qed.

Lemma startNode_seed (s : State) (seed : val) :
  seed <> VUndef -> nullish seed = false -> startNode seed s = opened s seed.
Proof.
  intros Hu Hn. rewrite <- (open_fields s seed Hn).
  unfold startNode. by destruct seed.
Qed.

Lemma startNode_token (s : State) :
  truthy (token (this s)) = true ->
  startNode VUndef s = opened s (token (this s)).
Proof.
  intros Ht. rewrite <- open_fields by (by destruct (token (this s))).
  unfold startNode. unfold bind at 1. by rewrite token_or_empty_token.
Qed.

Lemma startNode_empty (s : State) :
  truthy (token (this s)) = false ->
  startNode VUndef s
  = opened (mkState (this s) (mem s ++ [CObj ∅])%list) (VRef (List.length (mem s))).
Proof.
  intros Ht. rewrite <- open_fields by done.
  unfold startNode. unfold bind at 1. by rewrite token_or_empty_fresh.
Qed.

Lemma end_state_extends (s : State) : extends s (end_state s).
Proof.
  unfold end_state. destruct (_ || _); [apply extends_refl | apply extends_grow].
Qed.

Lemma end_state_this (s : State) : this (end_state s) = this s.
Proof. apply end_state_extends. Qed.

(** [this.token || this.stream.last() || {}] always yields an object (or a
    truthy primitive) whose [start] is [end_start]. *)
Lemma token_or_last_or_empty_run (s : State) :
  exists tok,
    token_or_last_or_empty s = (Ret tok, end_state s) /\
    nullish tok = false /\
    read_prop (mem (end_state s)) tok "start" = end_start s.
Proof.
  unfold token_or_last_or_empty, bind, read_token, get_state, end_state, end_start.
  destruct (truthy (token (this s))) eqn:Ht; simpl.
  { exists (token (this s)). by destruct (token (this s)). }
  destruct (truthy (stream_last (stream (this s)))) eqn:Hl; simpl.
  { exists (stream_last (stream (this s))).
    by destruct (stream_last (stream (this s))). }
  exists (VRef (List.length (mem s))). repeat split.
  unfold read_prop. simpl. by rewrite lookup_snoc_new.
Qed.

(** [concat] either returns a fresh array, or fails and leaves the state
    as it was. *)
Lemma call_concat_cases (recv arg : val) (s : State) :
  (exists l es,
      recv = VRef l /\ mem s !! l = Some (CArr es) /\
      call_concat recv arg s
      = (Ret (VRef (List.length (mem s))),
         mkState (this s)
           (mem s ++ [CArr (es ++ concat_items (mem s) arg)%list])%list)) \/
  ((forall l es, recv = VRef l -> mem s !! l <> Some (CArr es)) /\
   (call_concat recv arg s = (Throw TypeError, s) \/
    call_concat recv arg s = (Unmodelled, s))).
Proof.
  destruct recv as [| | | | |l]; simpl;
    try (right; split; [intros ???; discriminate | by auto]).
  destruct (mem s !! l) as [[m|es|r|nm msg]|] eqn:Hl.
  - right. split; [by intros ?? [= <-]; rewrite Hl|].
    destruct (m !! "concat") as [[| | | | |f]|]; auto.
    destruct (mem s !! f) as [[| | |]|]; auto.
  - left. by exists l, es.
  - right. split; [by intros ?? [= <-]; rewrite Hl | auto].
  - right. split; [by intros ?? [= <-]; rewrite Hl | auto].
  - right. split; [by intros ?? [= <-]; rewrite Hl | auto].
Qed.

(** [endNode] up to the call of [concat]. *)
Lemma endNode_unfold (s : State) (base : val) T :
  nullish base = false ->
  endNode base T s
  = (range <- call_concat (read_prop (mem (end_state s)) base "range") (end_start s) ;;
     toString <- alloc (CFun range) ;;
     s1 <- get_state ;;
     alloc (CObj (<["range" := range]>
                  (<["Type" := VStr T]>
                   (delete "toString" (own_props (mem s1) base)
                    ∪ {["toString" := toString]})))))
      (end_state s).
Proof.
  intros Hb.
  destruct (token_or_last_or_empty_run s) as (tok & Htok & Hn & Hstart).
  unfold endNode. unfold bind at 1. rewrite Htok.
  unfold bind at 1. unfold get at 1. rewrite Hb.
  unfold bind at 1. unfold get at 1. by rewrite Hn, Hstart.
Qed.

Lemma endNode_nullish_base (s : State) (base : val) T :
  nullish base = true -> endNode base T s = (Throw TypeError, end_state s).
Proof.
  intros Hb.
  destruct (token_or_last_or_empty_run s) as (tok & Htok & Hn & Hstart).
  unfold endNode. unfold bind at 1. rewrite Htok.
  unfold bind at 1. unfold get at 1. by rewrite Hb.
Qed.

(** [endNode] on a base whose [range] is an array. *)
Lemma endNode_run (s : State) (base : val) (r0 : loc) (es : list val) T :
  nullish base = false ->
  read_prop (mem (end_state s)) base "range" = VRef r0 ->
  mem (end_state s) !! r0 = Some (CArr es) ->
  endNode base T s
  = closed (end_state s)
      (own_props
         (mem (end_state s)
            ++ [CArr (es ++ concat_items (mem (end_state s)) (end_start s))%list;
                CFun (VRef (List.length (mem (end_state s))))])%list
         base)
      es (end_start s) T.
Proof.
  intros Hb Hr Hes. rewrite endNode_unfold by done. rewrite Hr.
  unfold bind at 1.
  destruct (call_concat_cases (VRef r0) (end_start s) (end_state s))
    as [(l & es' & [= <-] & Hl & ->)|[Hno _]]; [|by destruct (Hno r0 es)].
  rewrite Hes in Hl. injection Hl as <-.
  unfold closed, bind, alloc, get_state. simpl.
  rewrite <- !app_assoc, !length_app. simpl.
  rewrite !Nat.add_1_r.
  replace (List.length (mem (end_state s)) + 2)%nat
    with (S (S (List.length (mem (end_state s))))) by lia.
  reflexivity.
Qed.

(** Whatever the base is, a call of [endNode] that returns went through
    [endNode_run]; a call that does not return allocated at most the empty
    end token. *)
Lemma endNode_cases (s : State) (base : val) T :
  (exists r0 es,
      nullish base = false /\
      read_prop (mem (end_state s)) base "range" = VRef r0 /\
      mem (end_state s) !! r0 = Some (CArr es)) \/
  ((endNode base T s).2 = end_state s /\ forall v, (endNode base T s).1 <> Ret v).
Proof.
  destruct (nullish base) eqn:Hb.
  { right. by rewrite endNode_nullish_base. }
  destruct (call_concat_cases (read_prop (mem (end_state s)) base "range")
              (end_start s) (end_state s))
    as [(l & es & Hr & Hl & _)|[_ Hfail]].
  { left. by exists l, es. }
  right. rewrite endNode_unfold by done. unfold bind.
  by destruct Hfail as [-> | ->].
Qed.

Lemma lookup_grow (h : heap) (cs : list cell) (i : nat) :
  (h ++ cs)%list !! (List.length h + i)%nat = cs !! i.
Proof. rewrite lookup_app_r by lia. f_equal. lia. Qed.

Lemma lookup_beyond (h : heap) (i : nat) : h !! (List.length h + i)%nat = None.
Proof. apply lookup_ge_None. lia. Qed.

Lemma live_read_prop (h h' : heap) (v : val) (k : string) :
  live h v = true -> h `prefix_of` h' -> read_prop h' v k = read_prop h v k.
Proof.
  intros Hl [cs ->]. destruct v as [| | | | |l]; try reflexivity.
  simpl in Hl. apply bool_decide_eq_true in Hl.
  unfold read_prop. by rewrite lookup_app_l.
Qed.

Lemma opened_is_node_opened (s0 : State) (tok : val) :
  node_opened s0 (read_prop (mem s0) tok "value") (read_prop (mem s0) tok "start")
    (opened s0 tok).
Proof.
  set (n := List.length (mem s0)).
  destruct (opened_node_fields (read_prop (mem s0) tok "value")
              (VRef n) (VRef (n + 1)%nat) (VRef (n + 2)%nat))
    as (HT & Hv & Hr & Hm & Hp & Hty & Hd).
  exists (n + 3)%nat, n, (n + 1)%nat, (n + 2)%nat,
    (opened_node (read_prop (mem s0) tok "value")
       (VRef n) (VRef (n + 1)%nat) (VRef (n + 2)%nat)).
  unfold opened; fold n; simpl.
  repeat split; try done.
  - by apply prefix_app_r.
  - apply lookup_beyond.
  - unfold n. by rewrite lookup_grow.
  - unfold n. by rewrite <- (Nat.add_0_r (List.length (mem s0))), lookup_grow.
  - unfold n. by rewrite lookup_grow.
  - unfold n. by rewrite lookup_grow.
Qed.

Lemma node_opened_extends (s s0 : State) value start r :
  extends s s0 -> node_opened s0 value start r -> node_opened s value start r.
Proof.
  intros Hext (n & range & meta & params & m & Hr & He & Hfresh & Hrest).
  exists n, range, meta, params, m.
  split; [done|]. split; [by eapply extends_trans|]. split; [|done].
  destruct Hext as [_ Hp]. destruct (mem s !! n) eqn:Hn; [|done].
  by rewrite (prefix_lookup_Some _ _ _ _ Hn Hp) in Hfresh.
Qed.

(** C5.  [startNode(seed)] opens a node on the supplied seed when one is
    given, otherwise on the current token, otherwise on an empty object
    (whose [value] and [start] are [undefined]).  The node it returns has
    [range] the one-element array of the seed's start, [Type] the empty
    string, [value] that of the seed, [meta] an empty object, [params] an
    empty array and [type] null. *)
Theorem startNode_opens_node (s : State) (seed : val) :
  (seed <> VUndef -> nullish seed = false ->
     node_opened s (read_prop (mem s) seed "value") (read_prop (mem s) seed "start")
       (startNode seed s)) /\
  (truthy (token (this s)) = true ->
     node_opened s
       (read_prop (mem s) (token (this s)) "value")
       (read_prop (mem s) (token (this s)) "start")
       (startNode VUndef s)) /\
  (truthy (token (this s)) = false ->
     node_opened s VUndef VUndef (startNode VUndef s)).
Proof.
  repeat split.
  - intros Hu Hn. rewrite startNode_seed by done. apply opened_is_node_opened.
  - intros Ht. rewrite startNode_token by done. apply opened_is_node_opened.
  - intros Ht. rewrite startNode_empty by done.
    apply (node_opened_extends s (mkState (this s) (mem s ++ [CObj ∅])%list));
      [apply extends_grow|].
    set (s0 := mkState _ _).
    assert (Hempty : forall k, read_prop (mem s0) (VRef (List.length (mem s))) k = VUndef).
    { intros k. unfold read_prop, s0. simpl. by rewrite lookup_snoc_new. }
    pose proof (opened_is_node_opened s0 (VRef (List.length (mem s)))) as Ho.
    by rewrite !Hempty in Ho.
Qed.

Lemma closed_node_fields (props : gmap string val) T (range toString : val) :
  let m := closed_node props T range toString in
  m !! "Type" = Some (VStr T) /\
  m !! "range" = Some range /\
  m !! "toString" = Some toString /\
  (forall k, k <> "Type" -> k <> "range" -> k <> "toString" -> m !! k = props !! k).
Proof.
  unfold closed_node. repeat split.
  - by simplify_map_eq.
  - by simplify_map_eq.
  - rewrite !lookup_insert_ne by done.
    rewrite lookup_union_r by apply lookup_delete_eq.
    apply lookup_singleton_eq.
  - intros k HT Hr Hs. rewrite !lookup_insert_ne by done.
    rewrite lookup_union_l by (by rewrite lookup_singleton_ne).
    by rewrite lookup_delete_ne.
Qed.

(** The three objects [endNode] allocates, as seen in the final store. *)
Lemma closed_lookups (s0 : State) props es end_pos T :
  let r := closed s0 props es end_pos T in
  let n := List.length (mem s0) in
  r.1 = Ret (VRef (n + 2)%nat) /\
  extends s0 r.2 /\
  mem r.2 !! n = Some (CArr (es ++ concat_items (mem s0) end_pos)%list) /\
  mem r.2 !! (n + 1)%nat = Some (CFun (VRef n)) /\
  mem r.2 !! (n + 2)%nat
  = Some (CObj (closed_node props T (VRef n) (VRef (n + 1)%nat))).
Proof.
  unfold closed. simpl. repeat split.
  - by apply prefix_app_r.
  - by apply list_lookup_middle.
  - by rewrite lookup_grow.
  - by rewrite lookup_grow.
Qed.

(** C10.  [endNode(base, Type)] mutates nothing: the context is the one
    from before the call and every object that existed, the base node and
    its range array among them, is still in the store with the content it
    had.  The node it returns is a new object, and its range is a new
    array: the end position is added by building that array, not by
    appending to the base's. *)
Theorem endNode_does_not_mutate (s : State) (base : val) (T : string) :
  let r := endNode base T s in
  this r.2 = this s /\
  (forall l c, mem s !! l = Some c -> mem r.2 !! l = Some c) /\
  (forall v, r.1 = Ret v ->
     exists n m rng items,
       v = VRef n /\
       mem s !! n = None /\
       mem r.2 !! n = Some (CObj m) /\
       m !! "range" = Some (VRef rng) /\
       mem s !! rng = None /\
       mem r.2 !! rng = Some (CArr items) /\
       (forall b props r0 es,
           base = VRef b ->
           mem s !! b = Some (CObj props) ->
           props !! "range" = Some (VRef r0) ->
           mem s !! r0 = Some (CArr es) ->
           rng <> r0 /\ es `prefix_of` items /\
           mem r.2 !! b = Some (CObj props) /\
           mem r.2 !! r0 = Some (CArr es))).
Proof.
  intros r. subst r.
  assert (Hfresh : forall (s0 s1 : State) i,
             extends s0 s1 -> mem s0 !! (List.length (mem s1) + i)%nat = None).
  { intros s0 s1 i [_ Hp]. apply lookup_ge_None.
    apply prefix_length in Hp. lia. }
  destruct (endNode_cases s base T) as [(r0 & es & Hb & Hr & Hes)|[Hst Hno]].
  - rewrite (endNode_run s base r0 es T Hb Hr Hes).
    set (props := own_props _ base).
    destruct (closed_lookups (end_state s) props es (end_start s) T)
      as (Hret & Hext & Hrng & _ & Hnode).
    pose proof (extends_trans _ _ _ (end_state_extends s) Hext) as Hall.
    destruct (closed_node_fields props T
                (VRef (List.length (mem (end_state s))))
                (VRef (List.length (mem (end_state s)) + 1)%nat))
      as (_ & Hrange & _).
    split; [by rewrite (proj1 Hall)|].
    split; [intros l c Hl; by eapply extends_lookup|].
    intros v Hv. rewrite Hret in Hv. injection Hv as <-.
    eexists _, _, _, _. split; [reflexivity|].
    split; [apply Hfresh, end_state_extends|].
    split; [exact Hnode|]. split; [exact Hrange|].
    split; [rewrite <- (Nat.add_0_r (List.length _)); apply Hfresh, end_state_extends|].
    split; [exact Hrng|].
    intros b bprops b0 bes -> Hbl Hbr Hbes.
    pose proof (extends_lookup _ _ _ _ (end_state_extends s) Hbl) as Hbl'.
    pose proof (extends_lookup _ _ _ _ (end_state_extends s) Hbes) as Hbes'.
    unfold read_prop in Hr. rewrite Hbl', Hbr in Hr. simpl in Hr.
    injection Hr as <-. rewrite Hbes' in Hes. injection Hes as <-.
    repeat split.
    + intros Heq. apply lookup_lt_Some in Hbes'. lia.
    + by apply prefix_app_r.
    + by eapply extends_lookup.
    + by eapply extends_lookup.
  - rewrite Hst. split; [apply end_state_this|].
    split; [intros l c Hl; eapply extends_lookup; [apply end_state_extends | done]|].
    intros v Hv. by destruct (Hno v).
Qed.

Lemma single_item_extends (h h' : heap) (v : val) :
  single_item h v = true -> h `prefix_of` h' -> single_item h' v = true.
Proof.
  intros Hs Hp. destruct v as [| | | | |a]; try reflexivity.
  simpl in *. destruct (h !! a) as [c|] eqn:Ha; [|done].
  by rewrite (prefix_lookup_Some _ _ _ _ Ha Hp).
Qed.

(** Allocation does not move the end position of a live cursor. *)
Lemma end_start_extends (s s' : State) :
  extends s s' -> cursor_live s -> end_start s' = end_start s.
Proof.
  intros [Hthis Hp] [Ht Hl]. unfold end_start. rewrite Hthis.
  by rewrite (live_read_prop _ _ _ _ Ht Hp), (live_read_prop _ _ _ _ Hl Hp).
Qed.

(** [endNode] on a base object whose [range] is an array [es]: the result
    is a new node carrying the base's fields, with [Type] stamped and a new
    range array [es] followed by the end position. *)
Lemma endNode_appends (s : State) (b r0 : loc) props es T :
  mem s !! b = Some (CObj props) ->
  props !! "range" = Some (VRef r0) ->
  mem s !! r0 = Some (CArr es) ->
  single_item (mem s) (end_start s) = true ->
  exists n rng f s',
    endNode (VRef b) T s = (Ret (VRef n), s') /\
    extends s s' /\
    mem s !! n = None /\ mem s !! rng = None /\
    mem s' !! n = Some (CObj (closed_node props T (VRef rng) (VRef f))) /\
    mem s' !! rng = Some (CArr (es ++ [end_start s])%list) /\
    mem s' !! f = Some (CFun (VRef rng)).
Proof.
  intros Hb Hr Hes Hsingle.
  pose proof (end_state_extends s) as Hext.
  pose proof (extends_lookup _ _ _ _ Hext Hb) as Hb'.
  pose proof (extends_lookup _ _ _ _ Hext Hes) as Hes'.
  assert (Hread : read_prop (mem (end_state s)) (VRef b) "range" = VRef r0).
  { unfold read_prop. by rewrite Hb', Hr. }
  rewrite (endNode_run s (VRef b) r0 es T eq_refl Hread Hes').
  set (h2 := (mem (end_state s) ++ _)%list).
  assert (Hprops : own_props h2 (VRef b) = props).
  { unfold own_props, h2. by rewrite (lookup_app_l_Some _ _ _ _ Hb'). }
  rewrite Hprops.
  destruct (closed_lookups (end_state s) props es (end_start s) T)
    as (Hret & Hext2 & Hrng & Hfun & Hnode).
  rewrite (single_item_concat _ _ _ Hsingle (proj2 Hext)) in Hrng.
  assert (Hfresh : forall i, mem s !! (List.length (mem (end_state s)) + i)%nat = None).
  { intros i. apply lookup_ge_None.
    destruct Hext as [_ Hp]. apply prefix_length in Hp. lia. }
  exists (List.length (mem (end_state s)) + 2)%nat,
    (List.length (mem (end_state s))),
    (List.length (mem (end_state s)) + 1)%nat,
    (closed (end_state s) props es (end_start s) T).2.
  split; [by apply injective_projections|].
  split; [by eapply extends_trans|].
  split; [apply Hfresh|].
  split; [rewrite <- (Nat.add_0_r (List.length _)); apply Hfresh|].
  split; [exact Hnode|]. split; [exact Hrng | exact Hfun].
Qed.

(** C6.  With a current token, [startNode()] followed at once by
    [endNode(_, T)] gives a node whose [Type] is [T] and whose range holds
    the token's start position twice: the start and the end of the range
    are the same position. *)
Theorem startNode_endNode_same_position (s : State) (T : string) :
  truthy (token (this s)) = true ->
  cursor_live s ->
  single_item (mem s) (read_prop (mem s) (token (this s)) "start") = true ->
  exists node s1 n s2 m rng p,
    startNode VUndef s = (Ret node, s1) /\
    endNode node T s1 = (Ret (VRef n), s2) /\
    mem s2 !! n = Some (CObj m) /\
    m !! "Type" = Some (VStr T) /\
    m !! "range" = Some (VRef rng) /\
    mem s2 !! rng = Some (CArr [p; p]) /\
    p = read_prop (mem s) (token (this s)) "start".
Proof.
  intros Ht Hlive Hsingle.
  destruct (opened_is_node_opened s (token (this s)))
    as (n0 & range & meta & params & m0 & Hret & Hext & _ & Hnode & _ & _
        & Hrange & Harr & _).
  set (s1 := (opened s (token (this s))).2) in *.
  assert (Hend : end_start s1 = read_prop (mem s) (token (this s)) "start").
  { rewrite (end_start_extends s s1 Hext Hlive). unfold end_start. by rewrite Ht. }
  assert (Hsingle1 : single_item (mem s1) (end_start s1) = true).
  { rewrite Hend. eapply single_item_extends; [done | apply Hext]. }
  destruct (endNode_appends s1 n0 range m0 _ T Hnode Hrange Harr Hsingle1)
    as (n & rng & f & s2 & Hrun & _ & _ & _ & Hn & Hrng & _).
  destruct (closed_node_fields m0 T (VRef rng) (VRef f)) as (HT & HR & _).
  exists (VRef n0), s1, n, s2, (closed_node m0 T (VRef rng) (VRef f)), rng,
    (read_prop (mem s) (token (this s)) "start").
  split; [rewrite startNode_token by done; by apply injective_projections|].
  split; [exact Hrun|]. split; [exact Hn|]. split; [exact HT|].
  split; [exact HR|]. split; [|reflexivity].
  by rewrite Hrng, Hend.
Qed.

Lemma start_state_extends (s : State) : extends s (start_state s).
Proof.
  unfold start_state. destruct (truthy _); [apply extends_refl | apply extends_grow].
Qed.

(** [startNode()] in terms of its resolved seed. *)
Lemma startNode_default (s : State) :
  startNode VUndef s = opened (start_state s) (start_token s) /\
  read_prop (mem (start_state s)) (start_token s) "start" = seed_start s.
Proof.
  unfold start_state, start_token, seed_start.
  destruct (truthy (token (this s))) eqn:Ht.
  - split; [by apply startNode_token | done].
  - split; [by apply startNode_empty|].
    unfold read_prop. simpl. by rewrite lookup_snoc_new.
Qed.

(** [makeNode] up to its call of [endNode], for a partial that is an
    object with own properties [props]: the base handed to [endNode] is a
    new object holding [props] over the defaults of a freshly opened
    node. *)
Lemma makeNode_steps (s : State) (p : loc) props T :
  mem s !! p = Some (CObj props) ->
  exists s2 mloc n0 value meta params,
    makeNode (VRef p) T s = endNode (VRef mloc) T s2 /\
    extends s s2 /\
    mem s !! mloc = None /\
    mem s !! n0 = None /\
    mem s2 !! mloc
    = Some (CObj (props ∪ opened_node value (VRef n0) meta params)) /\
    mem s2 !! n0 = Some (CArr [seed_start s]).
Proof.
  intros Hp.
  destruct (startNode_default s) as [Hstart Hseed].
  pose proof (start_state_extends s) as Hext0.
  set (s0 := start_state s) in *. set (tok := start_token s) in *.
  set (n0 := List.length (mem s0)).
  set (h1 := mem (opened s0 tok).2).
  assert (Hh1 : mem s0 `prefix_of` h1) by (by apply prefix_app_r).
  assert (Hp1 : h1 !! p = Some (CObj props)).
  { eapply prefix_lookup_Some; [|exact Hh1]. by eapply extends_lookup. }
  assert (Hnode : h1 !! (n0 + 3)%nat
                  = Some (CObj (opened_node (read_prop (mem s0) tok "value")
                                  (VRef n0) (VRef (n0 + 1)%nat) (VRef (n0 + 2)%nat)))).
  { unfold h1, opened, n0. simpl. by rewrite lookup_grow. }
  assert (Hlen : (List.length (mem s) <= n0)%nat).
  { destruct Hext0 as [_ Hpre]. apply prefix_length in Hpre. unfold n0. lia. }
  exists (mkState (this s)
            (h1 ++ [CObj (props ∪ opened_node (read_prop (mem s0) tok "value")
                                    (VRef n0) (VRef (n0 + 1)%nat) (VRef (n0 + 2)%nat))])%list),
    (List.length h1), n0, (read_prop (mem s0) tok "value"),
    (VRef (n0 + 1)%nat), (VRef (n0 + 2)%nat).
  split.
  { unfold makeNode. unfold bind at 1. rewrite Hstart.
    unfold bind, get_state, alloc. simpl.
    unfold h1, opened, n0 in *. simpl in *.
    by rewrite Hp1, Hnode, (proj1 Hext0). }
  split.
  { split; [done|]. simpl.
    etrans; [apply Hext0|]. etrans; [exact Hh1|]. by apply prefix_app_r. }
  assert (Hlen1 : List.length h1 = (n0 + 4)%nat).
  { unfold h1, opened, n0. simpl. rewrite length_app. simpl. lia. }
  split; [apply lookup_ge_None; lia|].
  split; [apply lookup_ge_None; lia|].
  simpl. split; [apply lookup_snoc_new|].
  apply lookup_app_l_Some. rewrite <- Hseed.
  unfold h1, opened. simpl. by apply list_lookup_middle.
Qed.

(** C3 (as amended).  The node returned by [makeNode(partial, T)] has
    every key of [partial] with the value [partial] gives it, except
    [Type], [range] and [toString]: [Type] is exactly [T], [range] is a new
    array holding the computed span (the start of the opened node, or the
    entries of the partial's own range, followed by the end position) and
    [toString] is a new closure over that array. *)
Theorem makeNode_carries_partial (s : State) (p : loc) props T v s' :
  mem s !! p = Some (CObj props) ->
  makeNode (VRef p) T s = (Ret v, s') ->
  carries_partial ["Type"; "range"; "toString"] props (mem s') v /\
  read_own (mem s') v "Type" = Some (VStr T) /\
  exists rng items f,
    read_own (mem s') v "range" = Some (VRef rng) /\
    mem s !! rng = None /\
    mem s' !! rng = Some (CArr items) /\
    read_own (mem s') v "toString" = Some (VRef f) /\
    mem s !! f = None /\
    mem s' !! f = Some (CFun (VRef rng)) /\
    (cursor_live s -> single_item (mem s) (end_start s) = true ->
     (props !! "range" = None -> items = [seed_start s; end_start s]) /\
     (forall r es, props !! "range" = Some (VRef r) ->
                   mem s !! r = Some (CArr es) ->
                   items = (es ++ [end_start s])%list)).
Proof.
  intros Hp Hret.
  destruct (makeNode_steps s p props T Hp)
    as (s2 & mloc & n0 & value & meta & params
        & Hmk & Hext & Hm_new & Hn0_new & Hmerged & Harr0).
  rewrite Hmk in Hret.
  destruct (endNode_cases s2 (VRef mloc) T) as [(r0 & es & _ & Hr & Hes)|[_ Hno]];
    [|exfalso; apply (Hno v); by rewrite Hret].
  rewrite (endNode_run s2 (VRef mloc) r0 es T eq_refl Hr Hes) in Hret.
  pose proof (end_state_extends s2) as Hext2.
  pose proof (extends_lookup _ _ _ _ Hext2 Hmerged) as Hmerged2.
  set (merged := props ∪ opened_node value (VRef n0) meta params) in *.
  assert (Hown : own_props
                   (mem (end_state s2)
                      ++ [CArr (es ++ concat_items (mem (end_state s2)) (end_start s2))%list;
                          CFun (VRef (List.length (mem (end_state s2))))])%list
                   (VRef mloc) = merged).
  { unfold own_props. by rewrite (lookup_app_l_Some _ _ _ _ Hmerged2). }
  rewrite Hown in Hret.
  destruct (closed_lookups (end_state s2) merged es (end_start s2) T)
    as (Hv & Hext3 & Hrng & Hfun & Hnode).
  rewrite Hret in Hv, Hext3, Hrng, Hfun, Hnode. simpl in *.
  injection Hv as ->.
  set (n := List.length (mem (end_state s2))) in *.
  destruct (closed_node_fields merged T (VRef n) (VRef (n + 1)%nat))
    as (HT & HR & HS & Hkeep).
  assert (Hall : extends s (end_state s2)) by (by eapply extends_trans).
  assert (Hfresh : forall i, mem s !! (n + i)%nat = None).
  { intros i. apply lookup_ge_None. destruct Hall as [_ Hpre].
    apply prefix_length in Hpre. unfold n. lia. }
  split.
  { intros k x Hk Hex. unfold read_own. rewrite Hnode.
    rewrite Hkeep by set_solver.
    by apply lookup_union_Some_l. }
  split; [unfold read_own; by rewrite Hnode|].
  exists n, (es ++ concat_items (mem (end_state s2)) (end_start s2))%list, (n + 1)%nat.
  split; [unfold read_own; by rewrite Hnode|].
  split; [rewrite <- (Nat.add_0_r n); apply Hfresh|].
  split; [exact Hrng|].
  split; [unfold read_own; by rewrite Hnode|].
  split; [apply Hfresh|]. split; [exact Hfun|].
  intros Hlive Hsingle.
  assert (Hend : concat_items (mem (end_state s2)) (end_start s2) = [end_start s]).
  { rewrite (end_start_extends s s2 Hext Hlive).
    eapply single_item_concat; [exact Hsingle | apply Hall]. }
  rewrite Hend.
  unfold read_prop in Hr. rewrite Hmerged2 in Hr.
  split.
  - intros Hnone. unfold merged in Hr.
    rewrite (lookup_union_r _ _ _ Hnone) in Hr.
    rewrite (proj1 (proj2 (proj2 (opened_node_fields value (VRef n0) meta params)))) in Hr.
    simpl in Hr. injection Hr as <-.
    rewrite (extends_lookup _ _ _ _ Hext2 Harr0) in Hes. by injection Hes as <-.
  - intros r es0 Hsome Hes0. unfold merged in Hr.
    rewrite (lookup_union_Some_l _ _ _ _ Hsome) in Hr. simpl in Hr.
    injection Hr as <-.
    rewrite (extends_lookup _ _ _ _ Hall Hes0) in Hes. by injection Hes as <-.
Qed.

Lemma position_of_stable (h h' : heap) (v : val) (lc : Z * Z) :
  h `prefix_of` h' -> position_of h v = Some lc -> position_of h' v = Some lc.
Proof.
  intros Hp. unfold position_of, read_prop.
  destruct v as [| | | | |l]; try done.
  destruct (h !! l) as [c|] eqn:Hl; [|done].
  by rewrite (prefix_lookup_Some _ _ _ _ Hl Hp).
Qed.

(** Allocation keeps two positions in the order they were in. *)
Lemma precedes_stable (h h' : heap) (a b : val) :
  h `prefix_of` h' -> precedes_or_equals h a b -> precedes_or_equals h' a b.
Proof.
  intros Hp. unfold precedes_or_equals.
  destruct (position_of h a) as [[l1 c1]|] eqn:Ha; [|done].
  destruct (position_of h b) as [[l2 c2]|] eqn:Hb; [|done].
  by rewrite (position_of_stable _ _ _ _ Hp Ha), (position_of_stable _ _ _ _ Hp Hb).
Qed.

Lemma node_opened_range (s : State) value start r :
  node_opened s value start r ->
  exists n, r.1 = Ret (VRef n) /\ range_of (mem r.2) (VRef n) = Some [start].
Proof.
  intros (n & range & meta & params & m & Hr & _ & _ & Hn & _ & _ & Hrange & Harr & _).
  exists n. split; [done|]. unfold range_of, read_prop.
  by rewrite Hn, Hrange; simpl; rewrite Harr.
Qed.

(** A node that [startNode] returned has exactly one range entry. *)
Lemma startNode_range_one (s : State) (seed node : val) s1 :
  startNode seed s = (Ret node, s1) ->
  exists x, range_of (mem s1) node = Some [x].
Proof.
  intros Hrun.
  assert (exists s0 tok, startNode seed s = opened s0 tok) as (s0 & tok & Hopen).
  { destruct (decide (seed = VUndef)) as [->|Hu].
    - eexists _, _. apply startNode_default.
    - destruct (nullish seed) eqn:Hn; [by destruct seed|].
      eexists _, _. by apply startNode_seed. }
  destruct (node_opened_range _ _ _ _ (opened_is_node_opened s0 tok))
    as (n & Hret & Hrange).
  rewrite <- Hopen, Hrun in Hret, Hrange. simpl in *. injection Hret as ->. eauto.
Qed.

(** [endNode] adds exactly one entry to a range of any length. *)
Lemma endNode_range (s : State) (b r0 : loc) props es T :
  mem s !! b = Some (CObj props) ->
  props !! "range" = Some (VRef r0) ->
  mem s !! r0 = Some (CArr es) ->
  single_item (mem s) (end_start s) = true ->
  exists node s',
    endNode (VRef b) T s = (Ret node, s') /\
    extends s s' /\
    range_of (mem s') node = Some (es ++ [end_start s])%list.
Proof.
  intros Hb Hr Hes Hsingle.
  destruct (endNode_appends s b r0 props es T Hb Hr Hes Hsingle)
    as (n & rng & f & s' & Hrun & Hext & _ & _ & Hn & Hrng & _).
  exists (VRef n), s'. split; [done|]. split; [done|].
  unfold range_of, read_prop. rewrite Hn.
  rewrite (proj1 (proj2 (closed_node_fields props T (VRef rng) (VRef f)))).
  simpl. by rewrite Hrng.
Qed.

Lemma range_of_base (h : heap) (node : val) (items : list val) :
  range_of h node = Some items ->
  exists b props r0,
    node = VRef b /\ h !! b = Some (CObj props) /\
    props !! "range" = Some (VRef r0) /\ h !! r0 = Some (CArr items).
Proof.
  unfold range_of, read_prop. destruct node as [| | | | |b]; try done.
  destruct (h !! b) as [[props| | |]|] eqn:Hb; try done.
  destruct (props !! "range") as [[| | | | |r0]|] eqn:Hr; try done. simpl.
  destruct (h !! r0) as [[|es| |]|] eqn:Hes; try done.
  intros [= <-]. by exists b, props, r0.
Qed.

Lemma range_of_stable (h h' : heap) (node : val) (items : list val) :
  h `prefix_of` h' -> range_of h node = Some items -> range_of h' node = Some items.
Proof.
  intros Hp Hr.
  destruct (range_of_base _ _ _ Hr) as (b & props & r0 & -> & Hb & Hrange & Hes).
  unfold range_of, read_prop.
  rewrite (prefix_lookup_Some _ _ _ _ Hb Hp), Hrange. simpl.
  by rewrite (prefix_lookup_Some _ _ _ _ Hes Hp).
Qed.

(** [makeNode] returns when the base it builds has an array for a range:
    the array opened by [startNode], or the partial's own.  The range of
    the node is that array's entries followed by the end position. *)
Lemma makeNode_range (s : State) (p : loc) props T (es : list val) :
  mem s !! p = Some (CObj props) ->
  cursor_live s ->
  single_item (mem s) (end_start s) = true ->
  (props !! "range" = None /\ es = [seed_start s]) \/
  (exists r, props !! "range" = Some (VRef r) /\ mem s !! r = Some (CArr es)) ->
  exists node s',
    makeNode (VRef p) T s = (Ret node, s') /\
    range_of (mem s') node = Some (es ++ [end_start s])%list.
Proof.
  intros Hp Hlive Hsingle Hsrc.
  destruct (makeNode_steps s p props T Hp)
    as (s2 & mloc & n0 & value & meta & params
        & Hmk & Hext & _ & _ & Hmerged & Harr0).
  assert (exists r0, (props ∪ opened_node value (VRef n0) meta params) !! "range"
                     = Some (VRef r0) /\ mem s2 !! r0 = Some (CArr es))
    as (r0 & Hrange & Hes).
  { destruct Hsrc as [[Hnone ->]|(r & Hsome & Hr)].
    - exists n0. split; [|done]. rewrite (lookup_union_r _ _ _ Hnone).
      apply (opened_node_fields value (VRef n0) meta params).
    - exists r. split; [by apply lookup_union_Some_l | by eapply extends_lookup]. }
  assert (Hsingle2 : single_item (mem s2) (end_start s2) = true).
  { rewrite (end_start_extends s s2 Hext Hlive).
    eapply single_item_extends; [done | apply Hext]. }
  destruct (endNode_range s2 mloc r0 _ _ T Hmerged Hrange Hes Hsingle2)
    as (node & s' & Hrun & _ & Hr).
  exists node, s'. rewrite Hmk. split; [done|].
  by rewrite Hr, (end_start_extends s s2 Hext Hlive).
Qed.

(** C4 (as amended).  A node returned by [startNode] has exactly one
    range entry.  [endNode] returns a node whose range is the base's range
    followed by one entry, the end position: two entries, the seed's start
    and the end position, for a node that [startNode] opened, also after
    the cursor has moved and other objects were allocated, and for
    [makeNode] on a partial without a [range] key; one more than the base
    had in general.  The builder does not compare positions: the two
    entries are in source order when the seed's start and the end position
    were.  A partial that supplies its own range of [n] entries gives
    [n + 1]. *)
Theorem range_entries (s : State) :
  (forall seed node s1,
      startNode seed s = (Ret node, s1) ->
      exists x, range_of (mem s1) node = Some [x]) /\
  (forall b r0 props es T,
      mem s !! b = Some (CObj props) ->
      props !! "range" = Some (VRef r0) ->
      mem s !! r0 = Some (CArr es) ->
      single_item (mem s) (end_start s) = true ->
      exists node s',
        endNode (VRef b) T s = (Ret node, s') /\
        range_of (mem s') node = Some (es ++ [end_start s])%list) /\
  (forall seed node s1 x s2 T,
      startNode seed s = (Ret node, s1) ->
      range_of (mem s1) node = Some [x] ->
      mem s1 `prefix_of` mem s2 ->
      single_item (mem s2) (end_start s2) = true ->
      exists node' s3,
        endNode node T s2 = (Ret node', s3) /\
        range_of (mem s3) node' = Some [x; end_start s2] /\
        (precedes_or_equals (mem s2) x (end_start s2) ->
         precedes_or_equals (mem s3) x (end_start s2))) /\
  (forall p props T,
      mem s !! p = Some (CObj props) ->
      props !! "range" = None ->
      cursor_live s ->
      single_item (mem s) (end_start s) = true ->
      exists node s',
        makeNode (VRef p) T s = (Ret node, s') /\
        range_of (mem s') node = Some [seed_start s; end_start s]) /\
  (forall p props r es T,
      mem s !! p = Some (CObj props) ->
      props !! "range" = Some (VRef r) ->
      mem s !! r = Some (CArr es) ->
      cursor_live s ->
      single_item (mem s) (end_start s) = true ->
      exists node s',
        makeNode (VRef p) T s = (Ret node, s') /\
        range_of (mem s') node = Some (es ++ [end_start s])%list).
Proof.
  split; [apply startNode_range_one|].
  split.
  { intros b r0 props es T Hb Hr Hes Hsingle.
    destruct (endNode_range s b r0 props es T Hb Hr Hes Hsingle)
      as (node & s' & Hrun & _ & Hrange).
    by exists node, s'. }
  split; [|split].
  2:{ intros p props T Hp Hnone Hlive Hsingle.
      apply (makeNode_range s p props T [seed_start s]); auto. }
  2:{ intros p props r es T Hp Hsome Hr Hlive Hsingle.
      apply (makeNode_range s p props T es); eauto. }
  intros seed node s1 x s2 T _ Hrange Hp Hsingle.
  destruct (range_of_base _ _ _ (range_of_stable _ _ _ _ Hp Hrange))
    as (b & props & r0 & -> & Hb & Hr & Hes).
  destruct (endNode_range s2 b r0 props [x] T Hb Hr Hes Hsingle)
    as (node' & s3 & Hrun & Hext & Hrange').
  exists node', s3. split; [done|]. split; [done|].
  apply precedes_stable, Hext.
Qed.

End NodeBuilder.

Section NodeScenarios.
Import Example.

(** C3, as stated, fails: a partial with its own [toString] key does not
    get that value back; the node's [toString] is the new closure. *)
Lemma makeNode_replaces_toString :
  ~ (forall (s : State) (p : loc) props T v s',
        mem s !! p = Some (CObj props) ->
        makeNode (VRef p) T s = (Ret v, s') ->
        carries_partial ["Type"; "range"] props (mem s') v).
Proof.
  intros Hclaim.
  assert (Hrun : makeNode (VRef 10) "Identifier" partial_state
                 = (Ret (VRef 18), (makeNode (VRef 10) "Identifier" partial_state).2)).
  { apply injective_projections; [by vm_compute | reflexivity]. }
  specialize (Hclaim partial_state 10%nat _ "Identifier" _ _ eq_refl Hrun
                "toString" (VStr "x") eq_refl).
  assert (Hex : "toString" ∉ ["Type"; "range"]) by (by apply (bool_decide_unpack _)).
  specialize (Hclaim Hex). vm_compute in Hclaim. discriminate.
Qed.

(** The same partial under the amended claim: its [value] is carried. *)
Lemma makeNode_carries_partial_witness :
  read_own (mem (makeNode (VRef 10) "Identifier" partial_state).2) (VRef 18) "value"
  = Some (VStr "x").
Proof.
  assert (Hrun : makeNode (VRef 10) "Identifier" partial_state
                 = (Ret (VRef 18), (makeNode (VRef 10) "Identifier" partial_state).2)).
  { apply injective_projections; [by vm_compute | reflexivity]. }
  destruct (makeNode_carries_partial partial_state 10%nat _ "Identifier" _ _
              eq_refl Hrun) as [Hcarry _].
  apply Hcarry; [reflexivity | by apply (bool_decide_unpack _)].
Defined.

(** C4, as stated, fails twice.  A finished node passed as the partial of
    another [makeNode] (as in [makeNode({...node}, T)]) brings its
    two-entry range along and the result has three entries; and a node
    opened on the seed [;] (column 9) while the cursor is on [let]
    (column 0) ends before it starts. *)
Lemma finalized_range_counterexample :
  ~ (forall (s : State) (partial : val) T node s',
        makeNode partial T s = (Ret node, s') ->
        exists a b, range_of (mem s') node = Some [a; b] /\
                    precedes_or_equals (mem s') a b) /\
  ~ (forall (s : State) (seed : val) T node s1 node' s2,
        startNode seed s = (Ret node, s1) ->
        endNode node T s1 = (Ret node', s2) ->
        exists a b, range_of (mem s2) node' = Some [a; b] /\
                    precedes_or_equals (mem s2) a b).
Proof.
  split.
  - intros Hclaim.
    assert (Hrun : makeNode finished_node "Wrapper" finished_state
                   = (Ret (VRef 25), (makeNode finished_node "Wrapper" finished_state).2)).
    { apply injective_projections; [by vm_compute | reflexivity]. }
    destruct (Hclaim _ _ _ _ _ Hrun) as (a & b & Hrange & _).
    vm_compute in Hrange. discriminate.
  - intros Hclaim.
    assert (Hstart : startNode (VRef 9) (let_state 0)
                     = (Ret (VRef 13), (startNode (VRef 9) (let_state 0)).2)).
    { apply injective_projections; [by vm_compute | reflexivity]. }
    assert (Hend : endNode (VRef 13) "Statement" (startNode (VRef 9) (let_state 0)).2
                   = (Ret (VRef 16),
                      (endNode (VRef 13) "Statement" (startNode (VRef 9) (let_state 0)).2).2)).
    { apply injective_projections; [by vm_compute | reflexivity]. }
    destruct (Hclaim _ _ _ _ _ _ _ Hstart Hend) as (a & b & Hrange & Horder).
    assert (Hab : Some [a; b] = Some [VRef 8; VRef 0]%nat).
    { rewrite <- Hrange. by vm_compute. }
    injection Hab as -> ->.
    assert (Hpos : precedes_or_equals
                     (mem (endNode (VRef 13) "Statement"
                             (startNode (VRef 9) (let_state 0)).2).2)
                     (VRef 8) (VRef 0)
                   = (0 < 0 \/ (0 = 0 /\ 9 <= 0))%Z) by (by vm_compute).
    rewrite Hpos in Horder. lia.
Qed.

(** The amended C4 on the line: [makeNode] with the cursor on [x] and a
    partial without a range gives the two entries [x.start, x.start]. *)
Lemma range_entries_witness :
  exists node s',
    makeNode (VRef 10) "Identifier" partial_state = (Ret node, s') /\
    range_of (mem s') node = Some [VRef 2; VRef 2]%nat.
Proof.
  refine (proj1 (proj2 (proj2 (proj2 (range_entries partial_state))))
            10%nat _ "Identifier" eq_refl eq_refl _ eq_refl).
  split; reflexivity.
Defined.

(** C5 on the line: a node opened on the supplied seed [;]. *)
Lemma startNode_opens_node_witness :
  node_opened (let_state 0) (VStr ";") (VRef 8) (startNode (VRef 9) (let_state 0)).
Proof.
  exact (proj1 (startNode_opens_node (let_state 0) (VRef 9))
           ltac:(discriminate) eq_refl).
Defined.

(** C6 on the line, with the cursor on [x]. *)
Lemma startNode_endNode_same_position_witness :
  exists node s1 n s2 m rng p,
    startNode VUndef (let_state 1) = (Ret node, s1) /\
    endNode node "Identifier" s1 = (Ret (VRef n), s2) /\
    mem s2 !! n = Some (CObj m) /\
    m !! "Type" = Some (VStr "Identifier") /\
    m !! "range" = Some (VRef rng) /\
    mem s2 !! rng = Some (CArr [p; p]) /\
    p = VRef 2.
Proof.
  refine (startNode_endNode_same_position (let_state 1) "Identifier" eq_refl _ eq_refl).
  split; reflexivity.
Defined.

End NodeScenarios.

(** ** What no method does: frames *)

Section Frame.
Context `{TokenStreamOps} `{ErrorFormatter}.
Variable R : State -> State -> Prop.
Hypothesis R_refl : forall s, R s s.
Hypothesis R_trans : forall s1 s2 s3, R s1 s2 -> R s2 s3 -> R s1 s3.
Hypothesis R_alloc : forall s c, R s (mkState (this s) (mem s ++ [c])%list).

Lemma keeps_ret {A} (a : A) : keeps R (ret a).
Proof. intros s. apply R_refl. Qed.

Lemma keeps_throw {A} (e : exn) : keeps R (throw (A := A) e).
Proof. intros s. apply R_refl. Qed.

Lemma keeps_unmodelled {A} : keeps R (unmodelled (A := A)).
Proof. intros s. apply R_refl. Qed.

Lemma keeps_get_state : keeps R get_state.
Proof. intros s. apply R_refl. Qed.

Lemma keeps_read_token : keeps R read_token.
Proof. intros s. apply R_refl. Qed.

Lemma keeps_alloc (c : cell) : keeps R (alloc c).
Proof. intros s. apply R_alloc. Qed.

Lemma keeps_get (v : val) (k : string) : keeps R (get v k).
Proof. intros s. unfold get. destruct (nullish v); apply R_refl. Qed.

Lemma keeps_bind {A B} (m : js A) (k : A -> js B) :
  keeps R m -> (forall a, keeps R (k a)) -> keeps R (bind m k).
Proof.
  intros Hm Hk s. unfold bind. specialize (Hm s).
  destruct (m s) as [[a| |] s1]; simpl in *; try done.
  eapply R_trans; [exact Hm | apply Hk].
Qed.

Lemma keeps_call_concat (recv arg : val) : keeps R (call_concat recv arg).
Proof.
  intros s.
  destruct (call_concat_cases recv arg s) as [(l & es & _ & _ & ->)|[_ [-> | ->]]];
    simpl; auto.
Qed.

Lemma keeps_call_slice (recv a b : val) : keeps R (call_slice recv a b).
Proof.
  intros s. unfold call_slice.
  repeat (match goal with
          | |- context [match ?x with _ => _ end] => destruct x
          end; simpl; try apply R_refl).
Qed.

Lemma keeps_to_string (v : val) : keeps R (to_string v).
Proof.
  unfold to_string. destruct (to_string_prim v);
    [apply keeps_ret | apply keeps_unmodelled].
Qed.

(** One step of a proof that a method keeps [R]. *)
Ltac keeps_step :=
  first
    [ apply keeps_bind; [|intros ?]
    | apply keeps_ret | apply keeps_throw | apply keeps_unmodelled
    | apply keeps_get_state | apply keeps_read_token
    | apply keeps_alloc | apply keeps_get
    | apply keeps_call_concat | apply keeps_call_slice | apply keeps_to_string
    | match goal with
      | |- keeps _ (match ?x with _ => _ end) => destruct x
      | |- keeps _ (if ?b then _ else _) => destruct b
      end ].

Lemma keeps_syntaxError msg error : keeps R (syntaxError msg error).
Proof. unfold syntaxError. repeat keeps_step. Qed.

Lemma keeps_unexpectedValue value : keeps R (unexpectedValue value).
Proof. apply keeps_syntaxError. Qed.

Lemma keeps_unexpected tok : keeps R (unexpected tok).
Proof. unfold unexpected. repeat (apply keeps_syntaxError || keeps_step). Qed.

Lemma keeps_unknown arg : keeps R (unknown arg).
Proof. unfold unknown. repeat (apply keeps_syntaxError || keeps_step). Qed.

Lemma keeps_unsupported : keeps R unsupported.
Proof. unfold unsupported. repeat (apply keeps_syntaxError || keeps_step). Qed.

Lemma keeps_startNode seed : keeps R (startNode seed).
Proof. unfold startNode, token_or_empty. repeat keeps_step. Qed.

Lemma keeps_endNode base T : keeps R (endNode base T).
Proof. unfold endNode, token_or_last_or_empty. repeat keeps_step. Qed.

Lemma keeps_makeNode node T : keeps R (makeNode node T).
Proof.
  unfold makeNode.
  repeat (apply keeps_startNode || apply keeps_endNode || keeps_step).
Qed.

Lemma keeps_toString_body range : keeps R (toString_body range).
Proof. unfold toString_body. repeat keeps_step. Qed.

Lemma keeps_call_toString node : keeps R (call_toString node).
Proof.
  intros s. unfold call_toString.
  repeat (match goal with
          | |- context [toString_body ?r s] => apply (keeps_toString_body r s)
          | |- context [match ?x with _ => _ end] => destruct x
          end; simpl; try apply R_refl).
Qed.

(** The cursor methods, for a relation that also allows an advance. *)
Hypothesis R_next : forall s, R s (advanced s).

Lemma keeps_next : keeps R next.
Proof. intros s. rewrite next_run. apply R_next. Qed.

Lemma keeps_eat value type : keeps R (eat value type).
Proof. unfold eat. repeat (apply keeps_next || keeps_step). Qed.

Lemma keeps_expect value type : keeps R (expect value type).
Proof.
  unfold expect.
  repeat (apply keeps_eat || apply keeps_unexpectedValue
          || apply keeps_unexpected || keeps_step).
Qed.

End Frame.

(** ** Invariants of a context under any sequence of calls *)

Section Invariants.
Context `{TokenStreamOps} `{ErrorFormatter}.

Lemma evolves_refl (s : State) : evolves s s.
Proof. by repeat split. Qed.

Lemma evolves_trans (s1 s2 s3 : State) :
  evolves s1 s2 -> evolves s2 s3 -> evolves s1 s3.
Proof.
  intros (P1 & F1 & L1) (P2 & F2 & L2).
  split; [by etrans|]. split; congruence.
Qed.

Lemma evolves_alloc (s : State) (c : cell) :
  evolves s (mkState (this s) (mem s ++ [c])%list).
Proof. split; [by apply prefix_app_r | done]. Qed.

Lemma evolves_next (s : State) : evolves s (advanced s).
Proof. by repeat split. Qed.

Lemma after_evolves (c : call) (s : State) : evolves s (after c s).
Proof.
  pose proof evolves_refl as Hr. pose proof evolves_trans as Ht.
  pose proof evolves_alloc as Ha. pose proof evolves_next as Hn.
  destruct c; cbn [after].
  - apply (keeps_next evolves); auto.
  - apply (keeps_eat evolves); auto.
  - apply (keeps_expect evolves); auto.
  - apply (keeps_startNode evolves); auto.
  - apply (keeps_endNode evolves); auto.
  - apply (keeps_makeNode evolves); auto.
  - apply (keeps_syntaxError evolves); auto.
  - apply (keeps_unexpectedValue evolves); auto.
  - apply (keeps_unexpected evolves); auto.
  - apply (keeps_unknown evolves); auto.
  - apply (keeps_unsupported evolves); auto.
  - apply (keeps_call_toString evolves); auto.
Qed.

Lemma after_extends (c : call) (s : State) :
  moves_cursor c = false -> extends s (after c s).
Proof.
  pose proof extends_refl as Hr. pose proof extends_trans as Ht.
  assert (Ha : forall s c, extends s (mkState (this s) (mem s ++ [c])%list))
    by (intros; apply extends_grow).
  destruct c; cbn [after moves_cursor]; try discriminate; intros _.
  - apply (keeps_startNode extends); auto.
  - apply (keeps_endNode extends); auto.
  - apply (keeps_makeNode extends); auto.
  - apply (keeps_syntaxError extends); auto.
  - apply (keeps_unexpectedValue extends); auto.
  - apply (keeps_unexpected extends); auto.
  - apply (keeps_unknown extends); auto.
  - apply (keeps_unsupported extends); auto.
  - apply (keeps_call_toString extends); auto.
Qed.

Lemma after_all_evolves (cs : list call) (s : State) : evolves s (after_all cs s).
Proof.
  revert s. induction cs as [|c cs IH]; intros s; [apply evolves_refl|].
  simpl. eapply evolves_trans; [apply after_evolves | apply IH].
Qed.

(** X1.  Whatever sequence of methods is called on a context, with
    whatever arguments and whether or not calls throw, the store only
    grows: every object that existed (tokens, positions, nodes, partials)
    is still there with the content it had.  No method writes to an
    existing object. *)
Theorem methods_only_allocate (cs : list call) (s : State) :
  mem s `prefix_of` mem (after_all cs s) /\
  (forall l c, mem s !! l = Some c -> mem (after_all cs s) !! l = Some c).
Proof.
  destruct (after_all_evolves cs s) as (Hp & _).
  split; [done|]. intros l c Hl. by eapply prefix_lookup_Some.
Qed.

(** X2.  Only [next], [eat] and [expect] move the cursor: after any
    sequence of the other methods (node builder, diagnostics, the
    source-text accessor), successful or not, the context has the token
    and the stream it had. *)
Theorem cursor_moved_only_by_matcher (cs : list call) (s : State) :
  forallb (fun c => negb (moves_cursor c)) cs = true ->
  this (after_all cs s) = this s.
Proof.
  revert s. induction cs as [|c cs IH]; intros s Hcs; [done|].
  simpl in Hcs. apply andb_prop in Hcs as [Hc Hcs].
  apply negb_true_iff in Hc. simpl. rewrite (IH _ Hcs).
  by apply after_extends.
Qed.

(** X3.  [filename] is never assigned: a context made by the constructor
    still has none after any sequence of method calls, its [lines] are the
    ones it was given, and every diagnostic it builds is formatted with the
    file name ["unknown"]. *)
Theorem constructed_context_reports_unknown_file
    (stream0 : TokenStream) (token0 : val) (lines0 : list string) (h : heap)
    (cs : list call) (msg : string) (detail : val) :
  let s := after_all cs (mkState (Context_constructor stream0 token0 lines0) h) in
  filename (this s) = None /\
  lines (this s) = lines0 /\
  exists l s',
    syntaxError msg detail s = (Ret (VRef l), s') /\
    mem s' !! l
    = Some (CError "SyntaxError"
              (generateErrorString (mem s) msg (or_else detail (VStr ""))
                 (token (this s)) "unknown" "unknown")).
Proof.
  intros s.
  destruct (after_all_evolves cs
              (mkState (Context_constructor stream0 token0 lines0) h))
    as (_ & Hf & Hl).
  fold s in Hf, Hl. simpl in Hf, Hl.
  split; [done|]. split; [done|].
  eexists _, _. split; [apply syntaxError_run|].
  unfold with_error, reported_filename. rewrite Hf. simpl.
  apply lookup_snoc_new.
Qed.

End Invariants.

(** ** More on the matcher and the diagnostics *)

Section MatcherMore.
Context `{TokenStreamOps} `{ErrorFormatter}.

(** X4.  A value set takes precedence over the type: with a value set,
    [eat] and [expect] do not look at [type] at all.  In particular the
    empty set never matches, also when the token has the type asked for:
    [eat([], type)] answers [false] and [expect([], type)] throws its
    syntax error in every state, with or without a current token. *)
Theorem value_set_takes_precedence (s : State) (vs : list string) (t1 t2 : option string) :
  eat (Some vs) t1 s = eat (Some vs) t2 s /\
  expect (Some vs) t1 s = expect (Some vs) t2 s /\
  eat (Some []) t1 s = (Ret false, s) /\
  exists text,
    expect (Some []) t1 s
    = (Throw (Thrown (VRef (List.length (mem s)))),
       mkState (this s) (mem s ++ [CError "SyntaxError" text])%list).
Proof.
  assert (Hno : ~ current_matches s (Some []) t1).
  { intros [_ (x & _ & [])]. }
  split; [reflexivity|]. split; [reflexivity|].
  split; [by apply eat_mismatch|].
  eexists. by rewrite expect_value_failure.
Qed.

(** X5.  [expect] in a state with a current token (whose type, when no
    value set is given, is a primitive).  On a match it returns the token
    that was current and the context is advanced; nothing is allocated.  On
    a mismatch it throws a new [SyntaxError], the only object allocated,
    and the context is unchanged; the error is formatted from
    ["Expected: "] followed by the comma-separated value set and the detail
    ["Unexpected value"], or, without a value set, from ["Expected: "]
    followed by the type asked for ([undefined] when omitted) and the
    detail ["Unexpected token "] followed by the type found. *)
Theorem expect_with_current_token (s : State) value type (tys : string) :
  nullish (token (this s)) = false ->
  (value = None ->
   to_string_prim (read_prop (mem s) (token (this s)) "type") = Some tys) ->
  (current_matches s value type /\
   expect value type s = (Ret (token (this s)), advanced s)) \/
  (~ current_matches s value type /\
   expect value type s
   = (Throw (Thrown (VRef (List.length (mem s)))),
      mkState (this s)
        (mem s ++ [CError "SyntaxError"
                     (generateErrorString (mem s)
                        ("Expected: " ++ match value with
                                         | Some vs => join_comma vs
                                         | None => default "undefined" type
                                         end)
                        (VStr (match value with
                               | Some _ => "Unexpected value"
                               | None => "Unexpected token " ++ tys
                               end))
                        (token (this s)) (reported_filename (this s))
                        "unknown")])%list)).
Proof.
  intros Hn Hty.
  destruct (current_matches_dec s value type) as [Hm|Hm].
  - left. split; [done | by apply expect_success].
  - right. split; [done|]. destruct value as [vs|].
    + by rewrite expect_value_failure.
    + by rewrite (expect_type_failure s type tys Hm Hn (Hty eq_refl)).
Qed.

(** X15.  With a current token (whose type is a primitive), each of the
    five diagnostic constructors returns a [SyntaxError] that is a new
    object, not one that existed, and leaves the context as it was;
    [unknown] needs an argument that is not [null] or [undefined]. *)
Theorem diagnostics_return_new_errors
    (s : State) (msg : string) (detail arg : val) (value : expected)
    (tok : option string) (tys : string) :
  nullish (token (this s)) = false ->
  to_string_prim (read_prop (mem s) (token (this s)) "type") = Some tys ->
  nullish arg = false ->
  Forall (fun d : js val =>
            exists l s1,
              d s = (Ret (VRef l), s1) /\
              mem s !! l = None /\
              is_syntax_error (mem s1) (VRef l) /\
              this s1 = this s)
    [syntaxError msg detail; unexpectedValue value; unexpected tok;
     unknown arg; unsupported].
Proof.
  intros Hn Hty Harg.
  assert (Hnew : forall m d,
             mem s !! List.length (mem s) = None /\
             is_syntax_error (mem (with_error s m d)) (VRef (List.length (mem s))) /\
             this (with_error s m d) = this s).
  { intros m d. split; [apply lookup_ge_None; lia|].
    split; [apply with_error_is_syntax_error | done]. }
  repeat (apply Forall_cons; split); [..|apply Forall_nil_2]; eexists _, _.
  - split; [apply syntaxError_run | apply Hnew].
  - split; [apply unexpectedValue_run | apply Hnew].
  - split; [by apply (unexpected_run s tok tys) | apply Hnew].
  - split; [by apply unknown_run | apply Hnew].
  - split; [by apply unsupported_run | apply Hnew].
Qed.

End MatcherMore.

(** ** More on the node builder *)

Section NodeBuilderMore.
Context `{TokenStreamOps} `{ErrorFormatter}.

(** The four objects [startNode] allocates, as seen in the final store. *)
Lemma opened_parts (s0 : State) (tok : val) :
  let r := opened s0 tok in
  let n := List.length (mem s0) in
  r.1 = Ret (VRef (n + 3)%nat) /\
  extends s0 r.2 /\
  mem r.2 !! n = Some (CArr [read_prop (mem s0) tok "start"]) /\
  mem r.2 !! (n + 1)%nat = Some (CObj ∅) /\
  mem r.2 !! (n + 2)%nat = Some (CArr []) /\
  mem r.2 !! (n + 3)%nat
  = Some (CObj (opened_node (read_prop (mem s0) tok "value")
                  (VRef n) (VRef (n + 1)%nat) (VRef (n + 2)%nat))).
Proof.
  unfold opened. simpl. repeat split.
  - by apply prefix_app_r.
  - by apply list_lookup_middle.
  - by rewrite lookup_grow.
  - by rewrite lookup_grow.
  - by rewrite lookup_grow.
Qed.

(** How [startNode] resolves any seed but [null]. *)
Lemma startNode_resolved (s : State) (seed : val) :
  seed <> VNull ->
  exists s0 tok,
    startNode seed s = opened s0 tok /\ extends s s0 /\
    read_prop (mem s0) tok "value"
    = (if decide (seed = VUndef) then seed_value s else read_prop (mem s) seed "value") /\
    read_prop (mem s0) tok "start"
    = (if decide (seed = VUndef) then seed_start s else read_prop (mem s) seed "start").
Proof.
  intros Hnull. destruct (decide (seed = VUndef)) as [->|Hu].
  - exists (start_state s), (start_token s).
    split; [apply startNode_default|]. split; [apply start_state_extends|].
    split; [|apply startNode_default].
    unfold start_state, start_token, seed_value.
    destruct (truthy (token (this s))); [done|].
    unfold read_prop. simpl. by rewrite lookup_snoc_new.
  - exists s, seed. split; [|by split; [apply extends_refl|]].
    apply startNode_seed; [done | by destruct seed].
Qed.


(** [endNode] on a base object whose [range] is an array, whatever the end
    position is. *)
Lemma endNode_built (s : State) (b r0 : loc) props es T :
  mem s !! b = Some (CObj props) ->
  props !! "range" = Some (VRef r0) ->
  mem s !! r0 = Some (CArr es) ->
  exists n rng f s',
    endNode (VRef b) T s = (Ret (VRef n), s') /\
    extends s s' /\
    mem s !! n = None /\ mem s !! rng = None /\ mem s !! f = None /\
    mem s' !! n = Some (CObj (closed_node props T (VRef rng) (VRef f))) /\
    mem s' !! rng
    = Some (CArr (es ++ concat_items (mem (end_state s)) (end_start s))%list) /\
    mem s' !! f = Some (CFun (VRef rng)).
Proof.
  intros Hb Hr Hes.
  pose proof (end_state_extends s) as Hext.
  pose proof (extends_lookup _ _ _ _ Hext Hb) as Hb'.
  pose proof (extends_lookup _ _ _ _ Hext Hes) as Hes'.
  assert (Hread : read_prop (mem (end_state s)) (VRef b) "range" = VRef r0).
  { unfold read_prop. by rewrite Hb', Hr. }
  rewrite (endNode_run s (VRef b) r0 es T eq_refl Hread Hes').
  set (h2 := (mem (end_state s) ++ _)%list).
  assert (Hprops : own_props h2 (VRef b) = props).
  { unfold own_props, h2. by rewrite (lookup_app_l_Some _ _ _ _ Hb'). }
  rewrite Hprops.
  destruct (closed_lookups (end_state s) props es (end_start s) T)
    as (Hret & Hext2 & Hrng & Hfun & Hnode).
  assert (Hfresh : forall i, mem s !! (List.length (mem (end_state s)) + i)%nat = None).
  { intros i. apply lookup_ge_None.
    destruct Hext as [_ Hp]. apply prefix_length in Hp. lia. }
  exists (List.length (mem (end_state s)) + 2)%nat,
    (List.length (mem (end_state s))),
    (List.length (mem (end_state s)) + 1)%nat,
    (closed (end_state s) props es (end_start s) T).2.
  split; [by apply injective_projections|].
  split; [by eapply extends_trans|].
  split; [apply Hfresh|].
  split; [rewrite <- (Nat.add_0_r (List.length _)); apply Hfresh|].
  split; [apply Hfresh|].
  split; [exact Hnode|]. split; [exact Hrng | exact Hfun].
Qed.

Lemma closed_node_dom (props : gmap string val) T (range toString : val) :
  dom (closed_node props T range toString)
  = dom props ∪ list_to_set ["Type"; "range"; "toString"].
Proof.
  unfold closed_node.
  rewrite !dom_insert_L, dom_union_L, dom_delete_L, dom_singleton_L.
  apply set_eq. intros x. destruct (decide (x = "toString")) as [->|Hx];
    rewrite !elem_of_union, elem_of_difference, !elem_of_list_to_set,
      !elem_of_cons, !elem_of_singleton, elem_of_nil; tauto.
Qed.

(** X7.  [endNode] copies its base shallowly.  On a base object with an
    array for a range it returns; the node has exactly the keys of the base
    and [Type], [range], [toString]; every other key has the very value the
    base has (an object-valued field such as [meta] or [params] is shared
    with the base, not cloned); [Type] is the one given. *)
Theorem endNode_carries_base (s : State) (b r0 : loc) props es T :
  mem s !! b = Some (CObj props) ->
  props !! "range" = Some (VRef r0) ->
  mem s !! r0 = Some (CArr es) ->
  exists n m s',
    endNode (VRef b) T s = (Ret (VRef n), s') /\
    mem s' !! n = Some (CObj m) /\
    dom m = dom props ∪ list_to_set ["Type"; "range"; "toString"] /\
    m !! "Type" = Some (VStr T) /\
    (forall k, k <> "Type" -> k <> "range" -> k <> "toString" ->
               m !! k = props !! k).
Proof.
  intros Hb Hr Hes.
  destruct (endNode_built s b r0 props es T Hb Hr Hes)
    as (n & rng & f & s' & Hrun & _ & _ & _ & _ & Hn & _).
  destruct (closed_node_fields props T (VRef rng) (VRef f)) as (HT & _ & _ & Hkeep).
  exists n, (closed_node props T (VRef rng) (VRef f)), s'.
  split; [done|]. split; [done|]. split; [apply closed_node_dom|]. by split.
Qed.

(** [endNode] on a base that is [null] or [undefined], or whose [range]
    is. *)
Lemma endNode_no_range (s : State) (base : val) T :
  nullish base = true \/ nullish (read_prop (mem (end_state s)) base "range") = true ->
  endNode base T s = (Throw TypeError, end_state s).
Proof.
  intros [Hb|Hr]; [by apply endNode_nullish_base|].
  destruct (nullish base) eqn:Hb; [by apply endNode_nullish_base|].
  rewrite endNode_unfold by done. unfold bind.
  by destruct (read_prop (mem (end_state s)) base "range").
Qed.

(** X8.  [endNode] needs a started node.  On [null] or [undefined], and on
    an object that has no [range] or whose [range] is [null] (a token, a
    plain object), it throws a TypeError: no node is built, the context is
    unchanged, and at most the empty stand-in for a missing end token has
    been allocated.  So does [makeNode] on a partial whose own [range] is
    [null], which takes the place of the opened node's range. *)
Theorem endNode_needs_a_range (s : State) (base : val) T :
  (nullish base = true -> endNode base T s = (Throw TypeError, end_state s)) /\
  (forall b props,
      base = VRef b ->
      mem s !! b = Some (CObj props) ->
      props !! "range" = None \/ props !! "range" = Some VNull ->
      endNode base T s = (Throw TypeError, end_state s) /\
      this (end_state s) = this s /\
      (mem (end_state s) = mem s \/ mem (end_state s) = (mem s ++ [CObj ∅])%list)) /\
  (forall p props,
      base = VRef p ->
      mem s !! p = Some (CObj props) ->
      props !! "range" = Some VNull ->
      exists s', makeNode base T s = (Throw TypeError, s') /\ this s' = this s).
Proof.
  split; [intros Hb; apply endNode_no_range; by left|]. split.
  - intros b props -> Hb Hrange.
    split; [|split; [apply end_state_this|]].
    + apply endNode_no_range. right. unfold read_prop.
      rewrite (extends_lookup _ _ _ _ (end_state_extends s) Hb).
      by destruct Hrange as [-> | ->].
    + unfold end_state. destruct (_ || _); auto.
  - intros p props -> Hp Hrange.
    destruct (makeNode_steps s p props T Hp)
      as (s2 & mloc & n0 & value & meta & params & Hmk & Hext & _ & _ & Hmerged & _).
    exists (end_state s2). split.
    + rewrite Hmk. apply endNode_no_range. right. unfold read_prop.
      rewrite (extends_lookup _ _ _ _ (end_state_extends s2) Hmerged).
      by rewrite (lookup_union_Some_l _ _ _ _ Hrange).
    + rewrite end_state_this. apply Hext.
Qed.

(** [makeNode] up to its call of [endNode], with the parts of the opened
    node spelled out. *)
Lemma makeNode_base (s : State) (p : loc) props T :
  mem s !! p = Some (CObj props) ->
  exists s2 mloc n0 me pa,
    makeNode (VRef p) T s = endNode (VRef mloc) T s2 /\
    extends s s2 /\
    Forall (fun l => mem s !! l = None) [mloc; n0; me; pa] /\
    mem s2 !! mloc
    = Some (CObj (props ∪ opened_node (seed_value s) (VRef n0) (VRef me) (VRef pa))) /\
    mem s2 !! n0 = Some (CArr [seed_start s]) /\
    mem s2 !! me = Some (CObj ∅) /\
    mem s2 !! pa = Some (CArr []).
Proof.
  intros Hp.
  destruct (startNode_resolved s VUndef) as (s0 & tok & Hstart & Hext0 & Hvalue & Hseed);
    [done|].
  rewrite decide_True in Hvalue, Hseed by done.
  destruct (opened_parts s0 tok) as (Hret & Hext1 & Hr & Hm & Hpa & Hn).
  rewrite Hvalue in Hn. rewrite Hseed in Hr.
  set (n0 := List.length (mem s0)) in *.
  set (s1 := (opened s0 tok).2) in *.
  set (merged := props ∪ opened_node (seed_value s) (VRef n0)
                           (VRef (n0 + 1)%nat) (VRef (n0 + 2)%nat)).
  pose proof (extends_trans _ _ _ Hext0 Hext1) as Hext.
  assert (Hlen1 : List.length (mem s1) = (n0 + 4)%nat).
  { unfold s1, opened, n0. simpl. rewrite length_app. simpl. lia. }
  assert (Hlen : (List.length (mem s) <= n0)%nat).
  { destruct Hext0 as [_ Hpre]. apply prefix_length in Hpre. unfold n0. lia. }
  exists (mkState (this s) (mem s1 ++ [CObj merged])%list),
    (List.length (mem s1)), n0, (n0 + 1)%nat, (n0 + 2)%nat.
  split.
  { unfold makeNode. unfold bind at 1. rewrite Hstart.
    rewrite (surjective_pairing (opened s0 tok)), Hret. fold s1.
    unfold bind, get_state, alloc. cbn [fst snd mem this].
    unfold own_props. rewrite (extends_lookup _ _ _ _ Hext Hp), Hn.
    rewrite Hlen1. fold merged. by rewrite (proj1 Hext). }
  split.
  { split; [done|]. cbn [mem]. etrans; [apply Hext|]. by apply prefix_app_r. }
  split.
  { repeat (apply Forall_cons; split; [apply lookup_ge_None; lia|]).
    apply Forall_nil_2. }
  cbn [mem]. split; [apply lookup_snoc_new|].
  repeat split; by apply lookup_app_l_Some.
Qed.

(** X9.  [makeNode] fills in what the partial leaves out.  For a partial
    object without a [range] of its own it always returns; the node has
    exactly the keys of the partial and [Type], [value], [range], [meta],
    [params], [type], [toString]; a missing [value] is that of the current
    token ([undefined] without one), a missing [type] is [null], and a
    missing [meta] or [params] is a new empty object or array of the node's
    own. *)
Theorem makeNode_fills_defaults (s : State) (p : loc) props T :
  mem s !! p = Some (CObj props) ->
  props !! "range" = None ->
  exists n m s',
    makeNode (VRef p) T s = (Ret (VRef n), s') /\
    mem s' !! n = Some (CObj m) /\
    dom m = dom props ∪ list_to_set
              ["Type"; "value"; "range"; "meta"; "params"; "type"; "toString"] /\
    (props !! "value" = None -> m !! "value" = Some (seed_value s)) /\
    (props !! "type" = None -> m !! "type" = Some VNull) /\
    (props !! "meta" = None ->
     exists me, m !! "meta" = Some (VRef me) /\
                mem s !! me = None /\ mem s' !! me = Some (CObj ∅)) /\
    (props !! "params" = None ->
     exists pa, m !! "params" = Some (VRef pa) /\
                mem s !! pa = None /\ mem s' !! pa = Some (CArr [])).
Proof.
  intros Hp Hnone.
  destruct (makeNode_base s p props T Hp)
    as (s2 & mloc & n0 & me & pa & Hmk & Hext & Hfresh & Hmerged & Harr & Hme & Hpa).
  set (defaults := opened_node (seed_value s) (VRef n0) (VRef me) (VRef pa)) in *.
  destruct (opened_node_fields (seed_value s) (VRef n0) (VRef me) (VRef pa))
    as (_ & Fvalue & Frange & Fmeta & Fparams & Ftype & Fdom).
  fold defaults in Fvalue, Frange, Fmeta, Fparams, Ftype, Fdom.
  assert (Hrange : (props ∪ defaults) !! "range" = Some (VRef n0)).
  { by rewrite (lookup_union_r _ _ _ Hnone). }
  destruct (endNode_built s2 mloc n0 _ _ T Hmerged Hrange Harr)
    as (n & rng & f & s' & Hrun & Hext' & _ & _ & _ & Hn & _).
  destruct (closed_node_fields (props ∪ defaults) T (VRef rng) (VRef f))
    as (_ & _ & _ & Hkeep).
  apply Forall_cons in Hfresh as [_ Hfresh].
  apply Forall_cons in Hfresh as [_ Hfresh].
  apply Forall_cons in Hfresh as [Hme_new Hfresh].
  apply Forall_cons in Hfresh as [Hpa_new _].
  exists n, (closed_node (props ∪ defaults) T (VRef rng) (VRef f)), s'.
  split; [by rewrite Hmk|]. split; [done|]. split.
  { rewrite closed_node_dom, dom_union_L, Fdom.
    apply set_eq. intros x.
    rewrite !elem_of_union, !elem_of_list_to_set, !elem_of_cons, elem_of_nil.
    tauto. }
  split; [intros Hk; by rewrite Hkeep, (lookup_union_r _ _ _ Hk)|].
  split; [intros Hk; by rewrite Hkeep, (lookup_union_r _ _ _ Hk)|].
  split.
  - intros Hk. exists me. rewrite Hkeep, (lookup_union_r _ _ _ Hk) by done.
    split; [done|]. split; [done | by eapply extends_lookup].
  - intros Hk. exists pa. rewrite Hkeep, (lookup_union_r _ _ _ Hk) by done.
    split; [done|]. split; [done | by eapply extends_lookup].
Qed.

(** X10.  How the span comes about.  A node opened on the current token,
    followed by a matching [expect] (which returns that token and advances)
    and then closed, has the range [[start of the token that was eaten;
    start of the token now current]]; at the end of the input the second
    entry is the start of [stream.last()].  The node ends where the next
    token begins, not where the eaten one ends. *)
Theorem node_spans_to_next_token (s : State) value type T :
  truthy (token (this s)) = true ->
  current_matches s value type ->
  cursor_live s ->
  cursor_live (advanced s) ->
  single_item (mem s) (end_start (advanced s)) = true ->
  exists node s1 s2 node' s3,
    startNode VUndef s = (Ret node, s1) /\
    expect value type s1 = (Ret (token (this s)), s2) /\
    this s2 = this (advanced s) /\
    endNode node T s2 = (Ret node', s3) /\
    range_of (mem s3) node'
    = Some [read_prop (mem s) (token (this s)) "start"; end_start (advanced s)].
Proof.
  intros Ht [Hn Hm] Hlive Hlive' Hsingle.
  destruct (opened_parts s (token (this s))) as (Hret & Hext & Hr & _ & _ & Hnode).
  set (s1 := (opened s (token (this s))).2) in *.
  destruct Hext as [Hthis Hpre].
  assert (Hm1 : current_matches s1 value type).
  { split; [by rewrite Hthis|]. rewrite Hthis.
    by rewrite !(live_read_prop _ _ _ _ (proj1 Hlive) Hpre). }
  assert (Hadv : extends (advanced s) (advanced s1)).
  { unfold advanced. rewrite Hthis. by split. }
  assert (Hsingle2 : single_item (mem (advanced s1)) (end_start (advanced s1)) = true).
  { rewrite (end_start_extends _ _ Hadv Hlive').
    by eapply single_item_extends. }
  set (n0 := List.length (mem s)) in *.
  destruct (endNode_range (advanced s1) (n0 + 3)%nat n0 _ _ T Hnode
              (proj1 (proj2 (proj2 (opened_node_fields _ _ _ _)))) Hr Hsingle2)
    as (node' & s3 & Hrun & _ & Hrange).
  exists (VRef (n0 + 3)%nat), s1, (advanced s1), node', s3.
  split; [rewrite startNode_token by done; by apply injective_projections|].
  split; [rewrite <- Hthis; by apply expect_success|].
  split; [unfold advanced; by rewrite Hthis|].
  split; [done|].
  by rewrite Hrange, (end_start_extends _ _ Hadv Hlive').
Qed.

End NodeBuilderMore.

(** ** The derived source-text accessor *)

Section SourceText.
Context `{TokenStreamOps} `{ErrorFormatter}.

Lemma substring_zero (n : nat) (str : string) : String.substring n 0 str = "".
Proof.
  revert n. induction str as [|c str IH]; intros [|n]; simpl; auto.
Qed.

(** The part of a string from index [n] of length [m], in place. *)
Lemma substring_in_place (str : string) (n m : nat) :
  (n + m <= String.length str)%nat ->
  exists pre post,
    str = pre ++ String.substring n m str ++ post /\
    String.length pre = n /\
    String.length (String.substring n m str) = m.
Proof.
  revert str m. induction n as [|n IHn]; intros str m Hlen.
  - revert str Hlen. induction m as [|m IHm]; intros str Hlen.
    + exists "", str. by rewrite substring_zero.
    + destruct str as [|c str]; simpl in Hlen; [lia|].
      destruct (IHm str) as (pre & post & Hstr & Hpre & Hsub); [lia|].
      destruct pre; [|discriminate].
      exists "", post. split; [|split; [done|]].
      * change (String c str = String c (String.substring 0 m str ++ post)).
        f_equal. exact Hstr.
      * change (S (String.length (String.substring 0 m str)) = S m). by f_equal.
  - destruct str as [|c str]; simpl in Hlen; [lia|].
    destruct (IHn str m) as (pre & post & Hstr & Hpre & Hsub); [lia|].
    exists (String c pre), post. split; [|split].
    + change (String c str = String c (pre ++ String.substring n m str ++ post)).
      f_equal. exact Hstr.
    + change (S (String.length pre) = S n). by f_equal.
    + exact Hsub.
Qed.

(** [slice] between two columns inside the line. *)
Lemma string_slice_in_line (str : string) (a b : Z) :
  (0 <= a <= b)%Z -> (b <= Z.of_nat (String.length str))%Z ->
  string_slice str a b
  = String.substring (Z.to_nat a) (Z.to_nat b - Z.to_nat a) str.
Proof.
  intros Hab Hb. unfold string_slice, relative_index.
  destruct (Z.ltb_spec a 0) as [?|_]; [lia|].
  destruct (Z.ltb_spec b 0) as [?|_]; [lia|].
  rewrite !Z.min_l by lia. f_equal. lia.
Qed.

(** [slice] is empty when the end is not after the start. *)
Lemma string_slice_backwards (str : string) (a b : Z) :
  (0 <= b <= a)%Z -> string_slice str a b = "".
Proof.
  intros Hab. unfold string_slice, relative_index.
  destruct (Z.ltb_spec a 0) as [?|_]; [lia|].
  destruct (Z.ltb_spec b 0) as [?|_]; [lia|].
  rewrite Z.max_r by lia. apply substring_zero.
Qed.

(** [slice] from a column to itself is empty, whatever the column. *)
Lemma string_slice_same (str : string) (a : Z) : string_slice str a a = "".
Proof.
  unfold string_slice. rewrite Z.sub_diag. apply substring_zero.
Qed.

(** A property read that found something found a live object, and finds
    the same after allocations. *)
Lemma read_prop_stable (h h' : heap) (v : val) (k : string) :
  h `prefix_of` h' -> read_prop h v k <> VUndef ->
  read_prop h' v k = read_prop h v k /\ nullish v = false /\ single_item h v = true.
Proof.
  intros Hp Hx. unfold read_prop in *. destruct v as [| | | | |l]; try done.
  simpl. destruct (h !! l) as [c|] eqn:Hl; [|done].
  rewrite (prefix_lookup_Some _ _ _ _ Hl Hp). by destruct c.
Qed.

(** The closure run over a range whose first and last entries are
    positions. *)
Lemma toString_body_run (s : State) (r : loc) (es : list val) (p q : val) L a b :
  mem s !! r = Some (CArr es) ->
  es !! 0%nat = Some p ->
  es !! (List.length es - 1)%nat = Some q ->
  read_prop (mem s) p "sourceLine" = VStr L ->
  read_prop (mem s) p "col" = VNum a ->
  read_prop (mem s) q "col" = VNum b ->
  toString_body (VRef r) s = (Ret (VStr (string_slice L a b)), s).
Proof.
  intros Hr Hp Hq HL Ha Hb.
  assert (Hnp : nullish p = false).
  { apply (read_prop_stable (mem s) (mem s) p "sourceLine"); [done | by rewrite HL]. }
  assert (Hnq : nullish q = false).
  { apply (read_prop_stable (mem s) (mem s) q "col"); [done | by rewrite Hb]. }
  unfold toString_body. unfold bind at 1. unfold get_state at 1. rewrite Hr, Hp, Hq.
  simpl. unfold bind, get. rewrite Hnp, Hnq, HL, Ha, Hb. reflexivity.
Qed.

(** [node.toString()] on a node that carries such a closure. *)
Lemma call_toString_run
    (s : State) (n f r : loc) m (es : list val) (p q : val) L a b :
  mem s !! n = Some (CObj m) ->
  m !! "toString" = Some (VRef f) ->
  mem s !! f = Some (CFun (VRef r)) ->
  mem s !! r = Some (CArr es) ->
  es !! 0%nat = Some p ->
  es !! (List.length es - 1)%nat = Some q ->
  read_prop (mem s) p "sourceLine" = VStr L ->
  read_prop (mem s) p "col" = VNum a ->
  read_prop (mem s) q "col" = VNum b ->
  call_toString (VRef n) s = (Ret (VStr (string_slice L a b)), s).
Proof.
  intros Hn Hts Hf Hr Hp Hq HL Ha Hb.
  unfold call_toString. rewrite Hn, Hts, Hf. by eapply toString_body_run.
Qed.

(** X11.  The accessor is a pure read: whatever [node.toString()] yields
    (a string, a TypeError), the context and the store are afterwards what
    they were, so calling it again gives the same result. *)
Theorem toString_changes_nothing (s : State) (node : val) :
  (call_toString node s).2 = s /\
  call_toString node (call_toString node s).2 = call_toString node s.
Proof.
  assert (Hsame : (call_toString node s).2 = s).
  { symmetry. apply (keeps_call_toString eq); [done | intros; congruence]. }
  split; [done | by rewrite Hsame].
Qed.

(** X12.  What the accessor of a finished node returns.  When the first
    entry of the node's range is a position with a source line [L] and a
    column [a], and the last entry has the column [b], the text is
    [L.slice(a, b)]: for columns inside the line it is the [b - a]
    characters of [L] from column [a]; it is empty when [b] is not after
    [a].  Only the start's line is used: the line of the end position plays
    no part, so the text of a node that ends on a later line is cut from
    the first line alone. *)
Theorem toString_slices_start_line
    (s : State) (n f r : loc) m (es : list val) (p q : val) L a b :
  mem s !! n = Some (CObj m) ->
  m !! "toString" = Some (VRef f) ->
  mem s !! f = Some (CFun (VRef r)) ->
  mem s !! r = Some (CArr es) ->
  es !! 0%nat = Some p ->
  es !! (List.length es - 1)%nat = Some q ->
  read_prop (mem s) p "sourceLine" = VStr L ->
  read_prop (mem s) p "col" = VNum a ->
  read_prop (mem s) q "col" = VNum b ->
  call_toString (VRef n) s = (Ret (VStr (string_slice L a b)), s) /\
  ((0 <= a <= b)%Z -> (b <= Z.of_nat (String.length L))%Z ->
   exists pre post,
     L = pre ++ string_slice L a b ++ post /\
     Z.of_nat (String.length pre) = a /\
     Z.of_nat (String.length (string_slice L a b)) = (b - a)%Z) /\
  ((0 <= b <= a)%Z -> string_slice L a b = "").
Proof.
  intros Hn Hts Hf Hr Hp Hq HL Ha Hb. split; [|split].
  - by eapply call_toString_run.
  - intros Hab Hlen. rewrite string_slice_in_line by done.
    destruct (substring_in_place L (Z.to_nat a) (Z.to_nat b - Z.to_nat a))
      as (pre & post & HLeq & Hpre & Hsub); [lia|].
    exists pre, post. split; [done|]. split; lia.
  - apply string_slice_backwards.
Qed.

(** What [makeNode] builds around the accessor, for a partial without a
    range of its own. *)
Lemma makeNode_closure (s : State) (p : loc) props T :
  mem s !! p = Some (CObj props) ->
  props !! "range" = None ->
  exists n m f rng tail s',
    makeNode (VRef p) T s = (Ret (VRef n), s') /\
    extends s s' /\
    mem s' !! n = Some (CObj m) /\
    m !! "toString" = Some (VRef f) /\
    mem s' !! f = Some (CFun (VRef rng)) /\
    mem s' !! rng = Some (CArr (seed_start s :: tail)) /\
    (cursor_live s -> single_item (mem s) (end_start s) = true ->
     tail = [end_start s]).
Proof.
  intros Hp Hnone.
  destruct (makeNode_base s p props T Hp)
    as (s2 & mloc & n0 & me & pa & Hmk & Hext & _ & Hmerged & Harr & _).
  set (defaults := opened_node (seed_value s) (VRef n0) (VRef me) (VRef pa)) in *.
  assert (Hrange : (props ∪ defaults) !! "range" = Some (VRef n0)).
  { rewrite (lookup_union_r _ _ _ Hnone).
    apply (opened_node_fields (seed_value s) (VRef n0) (VRef me) (VRef pa)). }
  destruct (endNode_built s2 mloc n0 _ _ T Hmerged Hrange Harr)
    as (n & rng & f & s' & Hrun & Hext' & _ & _ & _ & Hn & Hrng & Hf).
  destruct (closed_node_fields (props ∪ defaults) T (VRef rng) (VRef f))
    as (_ & _ & Hts & _).
  exists n, (closed_node (props ∪ defaults) T (VRef rng) (VRef f)), f, rng,
    (concat_items (mem (end_state s2)) (end_start s2)), s'.
  split; [by rewrite Hmk|]. split; [by eapply extends_trans|].
  split; [done|]. split; [done|]. split; [done|]. split; [done|].
  intros Hlive Hsingle. rewrite (end_start_extends s s2 Hext Hlive).
  eapply single_item_concat; [exact Hsingle|].
  etrans; [apply Hext | apply end_state_extends].
Qed.

(** X13.  A node made without advancing has an empty text.  With a current
    token whose start is a position (a source line and a column),
    [makeNode] on a partial without a range returns a node whose accessor
    yields the empty string: the range starts and ends at the same
    column. *)
Theorem makeNode_text_is_empty (s : State) (p : loc) props T L a :
  mem s !! p = Some (CObj props) ->
  props !! "range" = None ->
  truthy (token (this s)) = true ->
  cursor_live s ->
  read_prop (mem s) (read_prop (mem s) (token (this s)) "start") "sourceLine" = VStr L ->
  read_prop (mem s) (read_prop (mem s) (token (this s)) "start") "col" = VNum a ->
  exists node s',
    makeNode (VRef p) T s = (Ret node, s') /\
    call_toString node s' = (Ret (VStr ""), s').
Proof.
  intros Hp Hnone Ht Hlive HL Ha.
  set (st := read_prop (mem s) (token (this s)) "start") in *.
  assert (Hseed : seed_start s = st) by (unfold seed_start; by rewrite Ht).
  assert (Hend : end_start s = st) by (unfold end_start; by rewrite Ht).
  destruct (makeNode_closure s p props T Hp Hnone)
    as (n & m & f & rng & tail & s' & Hrun & Hext & Hn & Hts & Hf & Hrng & Htail).
  destruct (read_prop_stable (mem s) (mem s') st "sourceLine" (proj2 Hext))
    as (HL' & _ & Hsingle); [by rewrite HL|].
  destruct (read_prop_stable (mem s) (mem s') st "col" (proj2 Hext))
    as (Ha' & _ & _); [by rewrite Ha|].
  rewrite Hend in Htail. rewrite (Htail Hlive Hsingle), Hseed in Hrng.
  exists (VRef n), s'. split; [done|].
  rewrite (call_toString_run s' n f rng m [st; st] st st L a a)
    by (done || congruence).
  by rewrite string_slice_same.
Qed.

(** X14.  A node made when there is no current token cannot show its
    text.  [makeNode] on a partial without a range still returns (the node
    is opened on an empty object, so its range starts with [undefined]),
    but the accessor of that node throws a TypeError. *)
Theorem makeNode_text_without_token (s : State) (p : loc) props T :
  mem s !! p = Some (CObj props) ->
  props !! "range" = None ->
  truthy (token (this s)) = false ->
  exists node s',
    makeNode (VRef p) T s = (Ret node, s') /\
    call_toString node s' = (Throw TypeError, s').
Proof.
  intros Hp Hnone Ht.
  destruct (makeNode_closure s p props T Hp Hnone)
    as (n & m & f & rng & tail & s' & Hrun & _ & Hn & Hts & Hf & Hrng & _).
  exists (VRef n), s'. split; [done|].
  unfold call_toString. rewrite Hn, Hts, Hf.
  unfold toString_body, bind, get_state. rewrite Hrng.
  unfold seed_start. by rewrite Ht.
Qed.

End SourceText.

(** ** The further properties on the line [let x = 5;] *)

Section MoreScenarios.
Import Example.

(** X2 on the line: opening a node, making one, a diagnostic and a text
    read leave the cursor on [x]. *)
Lemma cursor_moved_only_by_matcher_witness :
  this (after_all [Call_startNode VUndef; Call_makeNode (VRef 10) "Identifier";
                   Call_unsupported; Call_toString (VRef 18)] partial_state)
  = this partial_state.
Proof.
  exact (cursor_moved_only_by_matcher
           [Call_startNode VUndef; Call_makeNode (VRef 10) "Identifier";
            Call_unsupported; Call_toString (VRef 18)] partial_state eq_refl).
Defined.

(** X5 on the line: [expect(null, "identifier")] on [x] returns [x] and
    the cursor is on [=]. *)
Lemma expect_with_current_token_witness :
  expect None (Some "identifier") (let_state 1) = (Ret (VRef 3), let_state 2).
Proof.
  destruct (expect_with_current_token (let_state 1) None (Some "identifier")
              "identifier" eq_refl (fun _ => eq_refl)) as [[_ Hrun]|[Hno _]].
  - exact Hrun.
  - exfalso. apply Hno. split; reflexivity.
Defined.

(** X7 on the line: closing the node opened on [x] keeps its [value]. *)
Lemma endNode_carries_base_witness :
  exists n m s',
    endNode (VRef 13) "Identifier" open_state = (Ret (VRef n), s') /\
    mem s' !! n = Some (CObj m) /\
    m !! "Type" = Some (VStr "Identifier") /\
    m !! "value" = Some (VStr "x").
Proof.
  destruct (endNode_carries_base open_state 13%nat 10%nat
              (opened_node (VStr "x") (VRef 10) (VRef 11) (VRef 12))%nat
              [VRef 2]%nat "Identifier" eq_refl eq_refl eq_refl)
    as (n & m & s' & Hrun & Hn & _ & HT & Hkeep).
  exists n, m, s'. repeat split; try done.
  by rewrite Hkeep.
Defined.

(** X9 on the line: the partial [{ value, toString }] gets [type: null]. *)
Lemma makeNode_fills_defaults_witness :
  exists n m s',
    makeNode (VRef 10) "Identifier" partial_state = (Ret (VRef n), s') /\
    mem s' !! n = Some (CObj m) /\
    m !! "type" = Some VNull.
Proof.
  destruct (makeNode_fills_defaults partial_state 10%nat _ "Identifier"
              eq_refl eq_refl)
    as (n & m & s' & Hrun & Hn & _ & _ & Htype & _).
  exists n, m, s'. repeat split; try done. by apply Htype.
Defined.

(** X10 on the line: a node opened on [x] and closed after
    [expect(null, "identifier")] spans from [x] to [=]. *)
Lemma node_spans_to_next_token_witness :
  exists node s1 s2 node' s3,
    startNode VUndef (let_state 1) = (Ret node, s1) /\
    expect None (Some "identifier") s1 = (Ret (VRef 3), s2) /\
    this s2 = this (let_state 2) /\
    endNode node "Identifier" s2 = (Ret node', s3) /\
    range_of (mem s3) node' = Some [VRef 2; VRef 4]%nat.
Proof.
  refine (node_spans_to_next_token (let_state 1) None (Some "identifier")
            "Identifier" eq_refl _ _ _ eq_refl); split; reflexivity.
Defined.

(** X12 on the line: the text of the node that spans from [x] to [=]. *)
Lemma toString_slices_start_line_witness :
  call_toString (VRef 16) spanned_state = (Ret (VStr "x "), spanned_state).
Proof.
  exact (proj1 (toString_slices_start_line spanned_state 16%nat 15%nat 14%nat _
                  [VRef 2; VRef 4]%nat (VRef 2) (VRef 4) src 4 6
                  eq_refl eq_refl eq_refl eq_refl eq_refl eq_refl
                  eq_refl eq_refl eq_refl)).
Defined.

(** X13 on the line: a node made on [x] without advancing. *)
Lemma makeNode_text_is_empty_witness :
  exists node s',
    makeNode (VRef 10) "Identifier" partial_state = (Ret node, s') /\
    call_toString node s' = (Ret (VStr ""), s').
Proof.
  refine (makeNode_text_is_empty partial_state 10%nat _ "Identifier" src 4
            eq_refl eq_refl eq_refl _ eq_refl eq_refl).
  split; reflexivity.
Defined.

(** X14 on the line: a node made after the last token. *)
Lemma makeNode_text_without_token_witness :
  exists node s',
    makeNode (VRef 10) "Identifier" exhausted_state = (Ret node, s') /\
    call_toString node s' = (Throw TypeError, s').
Proof.
  exact (makeNode_text_without_token exhausted_state 10%nat _ "Identifier"
           eq_refl eq_refl eq_refl).
Defined.

(** X15 on the line, with the cursor on [x]. *)
Lemma diagnostics_return_new_errors_witness :
  exists l s1,
    unsupported (let_state 1) = (Ret (VRef l), s1) /\
    mem (let_state 1) !! l = None /\
    is_syntax_error (mem s1) (VRef l) /\
    this s1 = this (let_state 1).
Proof.
  pose proof (diagnostics_return_new_errors (let_state 1) "" VUndef (VRef 3)
                (ExpArr []) None "identifier" eq_refl eq_refl eq_refl) as Hall.
  do 4 apply Forall_cons in Hall as [_ Hall].
  by apply Forall_cons in Hall as [Hlast _].
Defined.

End MoreScenarios.
